(** * PageRank: the transition model and the two estimators of [pagerank.py]

    A shallow embedding of [transition_model], [sample_pagerank] and
    [iterate_pagerank], and the properties of them that the specification
    states.

    Conventions of the embedding.
    - A Python [dict] is an association list in insertion order, its keys
      pairwise distinct; a Python [set] of pages is a [gset].
    - Python numbers are read in two ways.  The program is first given over
      exact rationals ([Q]), where [1/3 + 1/3 + 1/3] is [1]; what is proved
      there about values holds for the program up to the rounding of its
      floats.  The module [Binary64] gives the same program over binary64
      floats, as CPython computes; it is run where rounding decides.
      Integer counters are [Z].
    - Exceptions are values of [result]; [while True] runs on fuel and
      [OutOfFuel] stands for a loop that has not stopped yet.
    - The caller's graph is one mutable object.  It lives in the [world]
      together with the state of the process-wide random generator; the
      parameter [corpus] of the source is the reference to that object, so
      the estimators read it, and write it, in the world. *)

From Stdlib Require Import ZArith QArith Qabs Qround Lqa Lia Floats Uint63.
From stdpp Require Import gmap strings list sorting pretty.

(** ** Python runtime *)

Inductive exn : Type :=
  | ZeroDivisionError
  | IndexError
  | KeyError
  | ValueError.

Inductive result (A : Type) : Type :=
  | Ok (a : A)
  | Raise (e : exn)
  | OutOfFuel.
Arguments Ok {A} a.
Arguments Raise {A} e.
Arguments OutOfFuel {A}.

#[global] Instance result_ret : MRet result := λ A a, Ok a.
#[global] Instance result_bind : MBind result := λ A B f m,
  match m with
  | Ok a => f a
  | Raise e => Raise e
  | OutOfFuel => OutOfFuel
  end.

(** [for x in xs: s = body(s, x)], in any monad. *)
Fixpoint for_in `{MBind M, MRet M} {A S : Type}
    (xs : list A) (body : S → A → M S) (s : S) : M S :=
  match xs with
  | [] => mret s
  | x :: xs' => s' ← body s x; for_in xs' body s'
  end.

Definition Page : Type := string.

(** Dictionaries. *)
Abbreviation dict V := (list (Page * V)).

Definition keys {V : Type} (d : dict V) : list Page := d.*1.
Definition values {V : Type} (d : dict V) : list V := d.*2.

Fixpoint dict_get {V : Type} (d : dict V) (k : Page) : option V :=
  match d with
  | [] => None
  | (k', v) :: d' => if decide (k' = k) then Some v else dict_get d' k
  end.

(** [d[k]] *)
Definition getitem {V : Type} (d : dict V) (k : Page) : result V :=
  match dict_get d k with
  | Some v => Ok v
  | None => Raise KeyError
  end.

(** [d[k] = v]: an existing key keeps its place, a new key goes last. *)
Fixpoint dict_set {V : Type} (d : dict V) (k : Page) (v : V) : dict V :=
  match d with
  | [] => [(k, v)]
  | (k', v') :: d' =>
      if decide (k' = k) then (k', v) :: d' else (k', v') :: dict_set d' k v
  end.

(** Numbers. *)
Definition Qlt_bool (a b : Q) : bool := negb (Qle_bool b a).

Definition of_nat (n : nat) : Q := inject_Z (Z.of_nat n).

(** [len(x)] as a number, for a dict and for a set. *)
Definition len {A : Type} (l : list A) : Q := of_nat (length l).
Definition set_len (s : gset Page) : Q := of_nat (size s).

(** [a / b] *)
Definition py_div (a b : Q) : result Q :=
  if Qeq_bool b 0 then Raise ZeroDivisionError else Ok (a / b)%Q.
Infix "/?" := py_div (at level 40, left associativity).

(** [sum(xs)]: a left fold that starts from [0]. *)
Definition py_sum (xs : list Q) : Q := fold_left Qplus xs 0%Q.

(** ** The graph and the world *)

Abbreviation graph := (dict (gset Page)).

(** The random generator is the stream of the raw words it will produce. *)
Record world : Type := World {
  corpus_obj : graph;
  rng : nat → N
}.

Definition M (A : Type) : Type := world → result (A * world).

#[global] Instance M_ret : MRet M := λ A a w, Ok (a, w).
#[global] Instance M_bind : MBind M := λ A B f m w,
  match m w with
  | Ok (a, w') => f a w'
  | Raise e => Raise e
  | OutOfFuel => OutOfFuel
  end.

Definition lift {A : Type} (r : result A) : M A := λ w,
  match r with
  | Ok a => Ok (a, w)
  | Raise e => Raise e
  | OutOfFuel => OutOfFuel
  end.

Definition raise {A : Type} (e : exn) : M A := λ _, Raise e.
Definition out_of_fuel {A : Type} : M A := λ _, OutOfFuel.

(** Reading [corpus], and [corpus[page] = links]. *)
Definition get_corpus : M graph := λ w, Ok (corpus_obj w, w).
Definition set_corpus_item (page : Page) (links : gset Page) : M unit := λ w,
  Ok (tt, World (dict_set (corpus_obj w) page links) (rng w)).

(** The next raw word of the generator. *)
Definition next_random : M N := λ w,
  Ok (rng w 0%nat, World (corpus_obj w) (λ i, rng w (S i))).

(** [random.random()]: a multiple of [2^-53] in [[0, 1)]. *)
Definition random_unit (k : N) : Q :=
  (inject_Z (Z.of_N (k mod 2 ^ 53)) / inject_Z (2 ^ 53))%Q.

(** [random.choice(seq)]: the index is the next number of the stream,
    reduced modulo the length, so that every index comes from some stream.
    CPython draws again while the number drawn is not below the length; these
    draws, and so how many raw words a call takes, are not modelled. *)
Definition random_choice {A : Type} (seq : list A) : M A :=
  match seq with
  | [] => raise IndexError
  | a :: _ => k ← next_random; mret (nth (N.to_nat k mod length seq) seq a)
  end.

(** [itertools.accumulate(ws)]: the running sums. *)
Fixpoint accumulate_from (acc : Q) (ws : list Q) : list Q :=
  match ws with
  | [] => []
  | w :: ws' => (acc + w)%Q :: accumulate_from (acc + w)%Q ws'
  end.
Definition accumulate (ws : list Q) : list Q :=
  match ws with
  | [] => []
  | w :: ws' => w :: accumulate_from w ws'
  end.

(** [bisect.bisect(a, x, 0, hi)] on a non-decreasing [a]: the number of
    entries among the first [hi] that are at most [x]. *)
Fixpoint bisect (a : list Q) (x : Q) (hi : nat) : nat :=
  match hi, a with
  | S hi', c :: a' => if Qle_bool c x then S (bisect a' x hi') else O
  | _, _ => O
  end.

(** [random.choices(population, weights=weights, k=1)[0]] *)
Definition random_choices1 {A : Type}
    (population : list A) (weights : list Q) : M A :=
  let cum_weights := accumulate weights in
  if negb (length cum_weights =? length population)%nat then raise ValueError
  else match last cum_weights with
  | None => raise IndexError
  | Some total =>
      if Qle_bool total 0 then raise ValueError
      else
        k ← next_random;
        let x := (random_unit k * total)%Q in
        match population !! bisect cum_weights x (length population - 1) with
        | Some p => mret p
        | None => raise IndexError
        end
  end.

(** ** The program *)

Definition transition_model
    (corpus : graph) (page : Page) (damping_factor : Q) : result (dict Q) :=
  links ← getitem corpus page;
  if (size links =? 0)%nat then
    for_in (keys corpus) (λ trans_model local_page,
      p ← 1 /? len corpus;
      mret (dict_set trans_model local_page p)) []
  else
    prob_per_link ← damping_factor /? set_len links;
    prob_per_page ← (1 - damping_factor) /? len corpus;
    for_in (keys corpus) (λ trans_model local_page,
      if bool_decide (local_page ∈ links)
      then mret (dict_set trans_model local_page (prob_per_page + prob_per_link)%Q)
      else mret (dict_set trans_model local_page prob_per_page)) [].

(** One turn of the sampling loop: the locals are the counters and the
    current page. *)
Definition sample_step (damping_factor : Q)
    (st : dict Z * Page) (_ : Z) : M (dict Z * Page) :=
  let '(pagerank_dict, initial_page) := st in
  corpus ← get_corpus;
  model ← lift (transition_model corpus initial_page damping_factor);
  next_page ← random_choices1 (keys model) (values model);
  c ← lift (getitem pagerank_dict next_page);
  mret (dict_set pagerank_dict next_page (c + 1)%Z, next_page).

Definition sample_pagerank (damping_factor : Q) (n : Z) : M (dict Q) :=
  corpus ← get_corpus;
  let pagerank_dict : dict Z := (λ page, (page, 0%Z)) <$> keys corpus in
  initial_page ← random_choice (keys corpus);
  st ← for_in (seqZ 0 n) (sample_step damping_factor)
         (pagerank_dict, initial_page);
  lift (mapM (λ '(page, c),
          q ← inject_Z c /? inject_Z n; mret (page, q)) st.1).

(** [sum(pagerank_dict[link] / len(corpus[link]) for link in corpus
         if page in corpus[link])] *)
Definition rank_sum
    (corpus : graph) (pagerank_dict : dict Q) (page : Page) : result Q :=
  for_in (keys corpus) (λ acc link,
    links ← getitem corpus link;
    if bool_decide (page ∈ links) then
      r ← getitem pagerank_dict link;
      t ← r /? set_len links;
      mret (acc + t)%Q
    else mret acc) 0%Q.

(** The body of the [for page in corpus] loop that fills [new_ranks]. *)
Definition new_ranks_pass (corpus : graph) (damping_factor : Q)
    (chose_page_at_random : Q) (pagerank_dict : dict Q) : result (dict Q) :=
  for_in (keys corpus) (λ new_ranks page,
    s ← rank_sum corpus pagerank_dict page;
    mret (dict_set new_ranks page
            (chose_page_at_random + damping_factor * s)%Q)) [].

(** [all(abs(new_ranks[page] - pagerank_dict[page]) < 0.001
         for page in pagerank_dict)] *)
Definition all_close (new_ranks pagerank_dict : dict Q) : result bool :=
  (fix go (ps : list Page) : result bool :=
     match ps with
     | [] => Ok true
     | page :: ps' =>
         a ← getitem new_ranks page;
         b ← getitem pagerank_dict page;
         if Qlt_bool (Qabs (a - b)) (1 # 1000) then go ps' else Ok false
     end) (keys pagerank_dict).

(** The [while True] loop.  It stops at [break] with the locals
    [pagerank_dict] and [new_ranks] as they are then. *)
Fixpoint iterate_loop (fuel : nat) (damping_factor : Q)
    (chose_page_at_random : Q) (pagerank_dict : dict Q)
    : M (dict Q * dict Q) :=
  match fuel with
  | O => out_of_fuel
  | S fuel' =>
      corpus ← get_corpus;
      new_ranks ← lift (new_ranks_pass corpus damping_factor
                          chose_page_at_random pagerank_dict);
      converged ← lift (all_close new_ranks pagerank_dict);
      if converged : bool then mret (pagerank_dict, new_ranks)
      else iterate_loop fuel' damping_factor chose_page_at_random new_ranks
  end.

(** The loop that gives every page without links a link to every page. *)
Definition normalize_sinks : M unit :=
  corpus ← get_corpus;
  for_in corpus (λ _ '(page, links),
    if (size links =? 0)%nat then
      c ← get_corpus; set_corpus_item page (list_to_set (keys c))
    else mret tt) tt.

(** Everything up to [break]: the locals of the loop when it stops. *)
Definition iterate_locals (fuel : nat) (damping_factor : Q)
    : M (dict Q * dict Q) :=
  corpus ← get_corpus;
  pagerank_dict ← lift (mapM (λ page,
                     v ← 1 /? len corpus; mret (page, v)) (keys corpus));
  _ ← normalize_sinks;
  corpus ← get_corpus;
  chose_page_at_random ← lift ((1 - damping_factor) /? len corpus);
  iterate_loop fuel damping_factor chose_page_at_random pagerank_dict.

Definition iterate_pagerank (fuel : nat) (damping_factor : Q) : M (dict Q) :=
  '(pagerank_dict, new_ranks) ← iterate_locals fuel damping_factor;
  mret pagerank_dict.

(** ** The crawler and the command line

    A directory is the list of its entries, in the order in which
    [os.listdir] gives them, each with the text that reading it gives;
    failures of the operating system are not modelled.  The regular
    expression engine is a parameter: [findall contents] stands for the call
    of [re.findall] in [crawl], which gives the targets of the [href]
    attributes of the anchors in [contents]. *)

(** [s.endswith(suffix)] *)
Definition endswith (s suffix : string) : bool :=
  bool_decide (Stdlib.Strings.String.list_ascii_of_string suffix
               `suffix_of` Stdlib.Strings.String.list_ascii_of_string s).

Section crawler.
Variable findall : string → list string.

(** The first loop of [crawl]: the links found in every HTML file, the file
    itself left out. *)
Definition extract_links (directory : list (string * string)) : graph :=
  fold_left (λ pages entry,
    let '(filename, contents) := entry in
    if negb (endswith filename ".html") then pages
    else
      let links := findall contents in
      dict_set pages filename (list_to_set links ∖ {[filename]})) directory [].

(** The second loop of [crawl]: only the links to pages of the corpus stay. *)
Definition keep_corpus_links (pages : graph) : result graph :=
  for_in (keys pages) (λ pages filename,
    links ← getitem pages filename;
    mret (dict_set pages filename
            (filter (λ link, link ∈ keys pages) links))) pages.

Definition crawl (directory : list (string * string)) : result graph :=
  keep_corpus_links (extract_links directory).
End crawler.

Definition DAMPING : Q := 85 # 100.
Definition SAMPLES : Z := 10000.

(** What [main] writes to the standard output: [print(corpus)], a line of
    text, and the line of a page and its rank, which is kept as the page and
    the number that the line shows to four decimals. *)
Inductive output : Type :=
  | PrintCorpus (corpus : graph)
  | PrintLine (line : string)
  | PrintRank (page : Page) (rank : Q).

(** How a run of [main] ends: [sys.exit(message)], an exception that nothing
    catches, the end of [main], or, when the fuel of the relaxation loop is
    used up, no end yet.  Each comes with the output written until then. *)
Inductive run : Type :=
  | Exit (message : string) (out : list output)
  | Uncaught (e : exn) (out : list output)
  | Finished (out : list output)
  | Running (out : list output).

(** [sorted(ranks)]: the keys in the order of their characters.  On keys
    that are pairwise different every sorting algorithm gives this list. *)
Definition sorted (ranks : dict Q) : list Page := merge_sort String.le (keys ranks).

(** The loop [for page in sorted(ranks)] that prints a rank per page. *)
Definition print_ranks (ranks : dict Q) : result (list output) :=
  mapM (λ page, r ← getitem ranks page; mret (PrintRank page r)) (sorted ranks).

(** How the rest of [main] ends after [prefix] has been written and the
    computation [r] has produced lines, or has failed. *)
Definition after_output (prefix : list output) (r : result (list output))
    (rest : list output → run) : run :=
  match r with
  | Ok lines => rest (prefix ++ lines)
  | Raise e => Uncaught e prefix
  | OutOfFuel => Running prefix
  end.

(** [main], given [sys.argv], the directories of the file system, the
    random generator and the fuel of the relaxation loop. *)
Definition main (findall : string → list string) (argv : list string)
    (listing : string → list (string * string)) (gen : nat → N) (fuel : nat) : run :=
  if negb (length argv =? 2)%nat then Exit "Usage: python pagerank.py corpus" []
  else
    match crawl findall (listing (nth 1 argv "")) with
    | Raise e => Uncaught e []
    | OutOfFuel => Running []
    | Ok corpus =>
        let out := [PrintCorpus corpus] in
        match sample_pagerank DAMPING SAMPLES (World corpus gen) with
        | Raise e => Uncaught e out
        | OutOfFuel => Running out
        | Ok (ranks, w) =>
            let out := out ++ [PrintLine ("PageRank Results from Sampling (n = "
                                          +:+ pretty SAMPLES +:+ ")")] in
            after_output out (print_ranks ranks) (λ out,
              match iterate_pagerank fuel DAMPING w with
              | Raise e => Uncaught e out
              | OutOfFuel => Running out
              | Ok (ranks, _) =>
                  let out := out ++ [PrintLine "PageRank Results from Iteration"] in
                  after_output out (print_ranks ranks) Finished
              end)
        end
    end.

(** ** The program in binary64

    The same program with Python floats as binary64 numbers, rounded to
    nearest even as CPython computes them; [sum] adds from left to right
    (CPython up to 3.11).  An integer becomes a float by [of_int], which is
    exact below 2^53, and so is the quotient of two such integers.  The
    definitions differ from the ones above in the arithmetic only; they run
    the program where rounding decides what it does. *)

Module Binary64.

Definition of_int (z : Z) : float :=
  if (z <? 0)%Z then (- of_uint63 (Uint63.of_Z (- z)))%float
  else of_uint63 (Uint63.of_Z z).

Definition len {A : Type} (l : list A) : float := of_int (Z.of_nat (length l)).
Definition set_len (s : gset Page) : float := of_int (Z.of_nat (size s)).

(** [a / b] *)
Definition py_div (a b : float) : result float :=
  if (b =? 0)%float then Raise ZeroDivisionError else Ok (a / b)%float.

(** [sum(xs)] *)
Definition py_sum (xs : list float) : float := fold_left PrimFloat.add xs 0%float.

(** The rational number that a finite float is. *)
Definition exact (x : float) : option Q :=
  match Prim2SF x with
  | S754_zero _ => Some 0%Q
  | S754_finite s m e =>
      Some (inject_Z (if s then Z.neg m else Z.pos m) * Qpower 2 e)%Q
  | _ => None
  end.

(** [random.random()] *)
Definition random_unit (k : N) : float :=
  (of_int (Z.of_N (k mod 2 ^ 53)) / of_int (2 ^ 53))%float.

Fixpoint accumulate_from (acc : float) (ws : list float) : list float :=
  match ws with
  | [] => []
  | w :: ws' => (acc + w)%float :: accumulate_from (acc + w)%float ws'
  end.
Definition accumulate (ws : list float) : list float :=
  match ws with
  | [] => []
  | w :: ws' => w :: accumulate_from w ws'
  end.

(** [bisect.bisect(a, x, lo, hi)], the binary search as it is written; the
    interval halves at every turn, so [fuel] above its length is enough. *)
Fixpoint bisect (fuel : nat) (a : list float) (x : float) (lo hi : nat) : nat :=
  match fuel with
  | O => lo
  | S fuel' =>
      if (lo <? hi)%nat then
        let mid := ((lo + hi) / 2)%nat in
        match a !! mid with
        | Some c =>
            if (x <? c)%float then bisect fuel' a x lo mid
            else bisect fuel' a x (S mid) hi
        | None => lo
        end
      else lo
  end.

(** [random.choices(population, weights=weights, k=1)[0]] *)
Definition random_choices1 {A : Type}
    (population : list A) (weights : list float) : M A :=
  let cum_weights := accumulate weights in
  if negb (length cum_weights =? length population)%nat then raise ValueError
  else match last cum_weights with
  | None => raise IndexError
  | Some last_weight =>
      let total := (last_weight + 0)%float in
      if (total <=? 0)%float then raise ValueError
      else if negb (is_finite total) then raise ValueError
      else
        k ← next_random;
        let x := (random_unit k * total)%float in
        let hi := (length population - 1)%nat in
        match population !! bisect (S hi) cum_weights x 0 hi with
        | Some p => mret p
        | None => raise IndexError
        end
  end.

Definition transition_model
    (corpus : graph) (page : Page) (damping_factor : float) : result (dict float) :=
  links ← getitem corpus page;
  if (size links =? 0)%nat then
    for_in (keys corpus) (λ trans_model local_page,
      p ← py_div 1 (len corpus);
      mret (dict_set trans_model local_page p)) []
  else
    prob_per_link ← py_div damping_factor (set_len links);
    prob_per_page ← py_div (1 - damping_factor)%float (len corpus);
    for_in (keys corpus) (λ trans_model local_page,
      if bool_decide (local_page ∈ links)
      then mret (dict_set trans_model local_page
                   (prob_per_page + prob_per_link)%float)
      else mret (dict_set trans_model local_page prob_per_page)) [].

Definition sample_step (damping_factor : float)
    (st : dict Z * Page) (_ : Z) : M (dict Z * Page) :=
  let '(pagerank_dict, initial_page) := st in
  corpus ← get_corpus;
  model ← lift (transition_model corpus initial_page damping_factor);
  next_page ← random_choices1 (keys model) (values model);
  c ← lift (getitem pagerank_dict next_page);
  mret (dict_set pagerank_dict next_page (c + 1)%Z, next_page).

Definition sample_pagerank (damping_factor : float) (n : Z) : M (dict float) :=
  corpus ← get_corpus;
  let pagerank_dict : dict Z := (λ page, (page, 0%Z)) <$> keys corpus in
  initial_page ← random_choice (keys corpus);
  st ← for_in (seqZ 0 n) (sample_step damping_factor)
         (pagerank_dict, initial_page);
  lift (mapM (λ '(page, c),
          q ← py_div (of_int c) (of_int n); mret (page, q)) st.1).

Definition rank_sum
    (corpus : graph) (pagerank_dict : dict float) (page : Page) : result float :=
  for_in (keys corpus) (λ acc link,
    links ← getitem corpus link;
    if bool_decide (page ∈ links) then
      r ← getitem pagerank_dict link;
      t ← py_div r (set_len links);
      mret (acc + t)%float
    else mret acc) 0%float.

Definition new_ranks_pass (corpus : graph) (damping_factor : float)
    (chose_page_at_random : float) (pagerank_dict : dict float)
    : result (dict float) :=
  for_in (keys corpus) (λ new_ranks page,
    s ← rank_sum corpus pagerank_dict page;
    mret (dict_set new_ranks page
            (chose_page_at_random + damping_factor * s)%float)) [].

Definition all_close (new_ranks pagerank_dict : dict float) : result bool :=
  (fix go (ps : list Page) : result bool :=
     match ps with
     | [] => Ok true
     | page :: ps' =>
         a ← getitem new_ranks page;
         b ← getitem pagerank_dict page;
         if (abs (a - b) <? 0x1.0624dd2f1a9fcp-10)%float then go ps' else Ok false
     end) (keys pagerank_dict).

Fixpoint iterate_loop (fuel : nat) (damping_factor : float)
    (chose_page_at_random : float) (pagerank_dict : dict float)
    : M (dict float * dict float) :=
  match fuel with
  | O => out_of_fuel
  | S fuel' =>
      corpus ← get_corpus;
      new_ranks ← lift (new_ranks_pass corpus damping_factor
                          chose_page_at_random pagerank_dict);
      converged ← lift (all_close new_ranks pagerank_dict);
      if converged : bool then mret (pagerank_dict, new_ranks)
      else iterate_loop fuel' damping_factor chose_page_at_random new_ranks
  end.

Definition iterate_locals (fuel : nat) (damping_factor : float)
    : M (dict float * dict float) :=
  corpus ← get_corpus;
  pagerank_dict ← lift (mapM (λ page,
                     v ← py_div 1 (len corpus); mret (page, v)) (keys corpus));
  _ ← normalize_sinks;
  corpus ← get_corpus;
  chose_page_at_random ← lift (py_div (1 - damping_factor)%float (len corpus));
  iterate_loop fuel damping_factor chose_page_at_random pagerank_dict.

Definition iterate_pagerank (fuel : nat) (damping_factor : float) : M (dict float) :=
  '(pagerank_dict, new_ranks) ← iterate_locals fuel damping_factor;
  mret pagerank_dict.

End Binary64.

(** ** Example graphs *)

Definition two_cycle : graph :=
  [("A", {["B"]}); ("B", {["A"]})].
Definition sink_graph : graph :=
  [("A", ∅); ("B", {["A"]})].
Definition zero_rng : nat → N := λ _, 0%N.

(** A cycle of three pages and a fourth page that links into it. *)
Definition tailed_cycle : graph :=
  [("A", {["D"]}); ("B", {["D"]}); ("C", {["B"]}); ("D", {["C"]})].
(** Three pages without links. *)
Definition three_sinks : graph :=
  [("A", ∅); ("B", ∅); ("C", ∅)].
(** The generator that produces the numbers of a list, then zeros. *)
Definition words (l : list N) : nat → N := λ i, nth i l 0%N.

(** Inputs on which rounding decides what the program does. *)

(** The damping factor [1 - 2^-53], the largest float below 1. *)
Definition below_one : float := 0x1.fffffffffffffp-1.

(** The three states between which the loop then moves on [tailed_cycle]. *)
Definition turn1 : dict float :=
  [("A", 0x1p-55); ("B", 0.25); ("C", 0.25); ("D", 0.5)]%float.
Definition turn2 : dict float :=
  [("A", 0x1p-55); ("B", 0.25); ("C", 0.5); ("D", 0.25)]%float.
Definition turn3 : dict float :=
  [("A", 0x1p-55); ("B", 0.5); ("C", 0.25); ("D", 0.25)]%float.

(** ** What the specification says

    The definitions below follow the words of the specification; the
    theorems compare the program with them. *)

(** Section 4.1: the probability of moving to [p] from a page whose outbound
    set is [links]. *)
Definition spec_transition_prob
    (corpus : graph) (links : gset Page) (damping : Q) (p : Page) : Q :=
  if (size links =? 0)%nat then (1 / len corpus)%Q
  else if bool_decide (p ∈ links)
       then ((1 - damping) / len corpus + damping / set_len links)%Q
       else ((1 - damping) / len corpus)%Q.

(** Section 3: the keys of a graph are distinct (it is a mapping) and every
    link target is itself a key. *)
Definition link_graph (corpus : graph) : Prop :=
  NoDup (keys corpus) ∧
  Forall (λ item, item.2 ⊆ list_to_set (keys corpus)) corpus.

#[global] Instance link_graph_dec (corpus : graph) : Decision (link_graph corpus).
Proof. unfold link_graph. apply _. Defined.

(** ** Notions for the proofs *)

(** The sum of [f] over the entries of a list, added up the way [sum] does. *)
Definition sum_over {A : Type} (xs : list A) (f : A → Q) : Q := py_sum (f <$> xs).

(** The number of samples counted so far. *)
Definition total_count (counts : dict Z) : Z := foldr Z.add 0%Z (values counts).

(** What one turn of the sampling loop keeps: the graph is as it was, the
    counters are over the pages of the graph and not negative, the current
    page is a page of the graph, and the counters add up to the number of
    turns taken. *)
Definition sampling (corpus : graph) (i : nat) (st : dict Z * Page) (w : world) : Prop :=
  corpus_obj w = corpus ∧ keys st.1 = keys corpus ∧ st.2 ∈ keys corpus ∧
  total_count st.1 = Z.of_nat i ∧ Forall (λ c, 0 ≤ c)%Z (values st.1).

(** ** The iterative estimator, loop-free

    What the loops of [iterate_pagerank] compute, as plain functions; the
    lemmas further down show that the program computes exactly these. *)

(** The graph after the loop that rewrites the pages without links. *)
Definition normalized (corpus : graph) : graph :=
  (λ item, (item.1, if (size item.2 =? 0)%nat
                    then list_to_set (keys corpus) else item.2)) <$> corpus.

(** The rank of a page in a rank mapping (0 for a page that has none). *)
Definition rank_of (ranks : dict Q) (q : Page) : Q := default 0%Q (dict_get ranks q).

Definition uniform_ranks (corpus : graph) : dict Q :=
  (λ page, (page, 1 / len corpus)%Q) <$> keys corpus.

Definition rank_sum_value (corpus : graph) (ranks : dict Q) (page : Page) : Q :=
  fold_left (λ acc item, if bool_decide (page ∈ item.2)
                         then (acc + rank_of ranks item.1 / set_len item.2)%Q
                         else acc) corpus 0%Q.

Definition next_ranks (corpus : graph) (damping chose : Q) (ranks : dict Q) : dict Q :=
  (λ page, (page, chose + damping * rank_sum_value corpus ranks page)%Q) <$> keys corpus.

Definition close_enough (new_ranks ranks : dict Q) : bool :=
  forallb (λ page, Qlt_bool (Qabs (rank_of new_ranks page - rank_of ranks page)) (1 # 1000))
          (keys ranks).

(** The ranks after [k] passes. *)
Definition ranks_after (corpus : graph) (damping chose : Q) (k : nat) (ranks : dict Q)
    : dict Q :=
  Nat.iter k (next_ranks corpus damping chose) ranks.

(** The rank that flows into [page] along the links. *)
Definition inflow (corpus : graph) (ρ : Page → Q) (page : Page) : Q :=
  sum_over corpus (λ item, if bool_decide (page ∈ item.2)
                           then ρ item.1 / set_len item.2 else 0)%Q.

(** The total change between two rank mappings over the pages [ks]. *)
Definition change (ks : list Page) (ranks ranks' : dict Q) : Q :=
  sum_over ks (λ page, Qabs (rank_of ranks' page - rank_of ranks page)).

(** A number of passes after which the loop has stopped. *)
Definition pass_bound (damping : Q) : nat :=
  Z.to_nat (Qceiling (2000 / (1 - damping))).

(** What every pass keeps: the ranks are over the pages of the graph, add
    up to 1, and are at least the random-jump term. *)
Definition rank_distribution (corpus : graph) (chose : Q) (ranks : dict Q) : Prop :=
  keys ranks = keys corpus ∧
  (sum_over (keys corpus) (rank_of ranks) == 1)%Q ∧
  ∀ p, p ∈ keys corpus → (chose <= rank_of ranks p)%Q.

(** ** Tactics *)

(** A closed decidable fact, by evaluating its decision procedure. *)
Ltac by_evaluation := by apply (bool_decide_unpack _).

(** ** Dictionaries *)

Section dict_facts.
Context {V : Type}.
Implicit Types (d : dict V) (k : Page) (v : V).

Lemma dict_get_elem d k v : dict_get d k = Some v → (k, v) ∈ d.
Proof.
  induction d as [|[k' v'] d IH]; simpl; [done|].
  destruct (decide (k' = k)) as [->|]; intros E.
  - injection E as ->. left.
  - right. auto.
Qed.

Lemma dict_get_None d k : dict_get d k = None ↔ k ∉ keys d.
Proof.
  unfold keys. induction d as [|[k' v'] d IH]; simpl.
  - split; [intros _; apply not_elem_of_nil | done].
  - rewrite not_elem_of_cons.
    destruct (decide (k' = k)) as [->|];
      [|rewrite IH; split; [intros ?; split; [congruence|done] | tauto]].
    split; [done|]. intros [? _]. done.
Qed.

Lemma dict_get_is_Some d k : k ∈ keys d → is_Some (dict_get d k).
Proof.
  intros Hk. destruct (dict_get d k) eqn:E; [eauto|].
  apply dict_get_None in E. done.
Qed.

Lemma dict_get_NoDup d k v :
  NoDup (keys d) → (k, v) ∈ d → dict_get d k = Some v.
Proof.
  unfold keys. induction d as [|[k' v'] d IH]; simpl; intros ND Hin.
  - by apply elem_of_nil in Hin.
  - apply NoDup_cons in ND as [Hk' ND].
    apply elem_of_cons in Hin as [E|Hin].
    + injection E as -> ->. by rewrite decide_True.
    + destruct (decide (k' = k)) as [->|]; [|auto].
      exfalso. apply Hk'. apply list_elem_of_fmap. by exists (k, v).
Qed.

Lemma dict_set_fresh d k v : k ∉ keys d → dict_set d k v = d ++ [(k, v)].
Proof.
  unfold keys. induction d as [|[k' v'] d IH]; simpl; [done|].
  rewrite not_elem_of_cons. intros [Hne Hk].
  rewrite decide_False by done. by rewrite IH.
Qed.

Lemma keys_dict_set_present d k v : k ∈ keys d → keys (dict_set d k v) = keys d.
Proof.
  unfold keys. induction d as [|[k' v'] d IH]; simpl; intros Hk.
  - by apply elem_of_nil in Hk.
  - destruct (decide (k' = k)) as [->|Hne]; simpl; [done|].
    apply elem_of_cons in Hk as [->|Hk]; [done|]. f_equal. by apply IH.
Qed.

Lemma keys_tabulate (g : Page → V) (ks : list Page) :
  keys ((λ k, (k, g k)) <$> ks) = ks.
Proof.
  unfold keys. rewrite <- list_fmap_compose. apply list_fmap_id.
Qed.

Lemma values_tabulate (g : Page → V) (ks : list Page) :
  values ((λ k, (k, g k)) <$> ks) = g <$> ks.
Proof. unfold values. by rewrite <- list_fmap_compose. Qed.

Lemma dict_get_tabulate (g : Page → V) (ks : list Page) k :
  k ∈ ks → dict_get ((λ k, (k, g k)) <$> ks) k = Some (g k).
Proof.
  induction ks as [|k' ks IH]; simpl; intros Hk.
  - by apply elem_of_nil in Hk.
  - destruct (decide (k' = k)) as [->|Hne]; [done|].
    apply elem_of_cons in Hk as [->|Hk]; [done|auto].
Qed.

(** A loop that stores one value per key builds the table of the values. *)
Lemma for_in_tabulate (g : Page → V) (body : dict V → Page → result (dict V))
    (ks : list Page) (acc : dict V) :
  NoDup ks →
  (∀ k, k ∈ ks → k ∉ keys acc) →
  (∀ a k, k ∈ ks → body a k = Ok (dict_set a k (g k))) →
  for_in ks body acc = Ok (acc ++ ((λ k, (k, g k)) <$> ks)).
Proof.
  intros ND. revert acc. induction ND as [|k ks Hk ND IH]; intros acc Hfresh Hbody.
  - simpl. by rewrite app_nil_r.
  - simpl. rewrite Hbody by left. simpl.
    rewrite dict_set_fresh by (apply Hfresh; left).
    rewrite IH.
    + by rewrite <- app_assoc.
    + intros k' Hk'. unfold keys. rewrite fmap_app, elem_of_app. simpl.
      intros [Hin|Hin].
      * eapply Hfresh; [right; exact Hk'|exact Hin].
      * apply list_elem_of_singleton in Hin as ->. done.
    + intros a k' Hk'. apply Hbody. by right.
Qed.
End dict_facts.

(** ** Numbers *)

Lemma of_nat_eq_0 (n : nat) : (of_nat n == 0)%Q ↔ n = 0%nat.
Proof.
  unfold of_nat, Qeq. simpl. lia.
Qed.

Lemma of_nat_pos (n : nat) : (0 < n)%nat → (0 < of_nat n)%Q.
Proof. unfold of_nat, Qlt. simpl. lia. Qed.

Lemma of_nat_nonneg (n : nat) : (0 <= of_nat n)%Q.
Proof. unfold of_nat, Qle. simpl. lia. Qed.

Lemma of_nat_S (n : nat) : (of_nat (S n) == of_nat n + 1)%Q.
Proof.
  unfold of_nat. rewrite Nat2Z.inj_succ, <- Z.add_1_r, inject_Z_plus. reflexivity.
Qed.

Lemma py_div_ok (a b : Q) : ¬ (b == 0)%Q → a /? b = Ok (a / b)%Q.
Proof.
  intros Hb. unfold py_div. destruct (Qeq_bool b 0) eqn:E; [|done].
  apply Qeq_bool_iff in E. done.
Qed.

Lemma py_div_zero (a b : Q) : (b == 0)%Q → a /? b = Raise ZeroDivisionError.
Proof.
  intros Hb. unfold py_div. apply Qeq_bool_iff in Hb. by rewrite Hb.
Qed.

Lemma Qlt_bool_iff (a b : Q) : Qlt_bool a b = true ↔ (a < b)%Q.
Proof.
  unfold Qlt_bool. rewrite negb_true_iff, <- not_true_iff_false, Qle_bool_iff.
  split; [apply Qnot_le_lt | apply Qlt_not_le].
Qed.

(** ** The transition model *)

Lemma len_keys {V : Type} (d : dict V) : len (keys d) = len d.
Proof. unfold len, keys. by rewrite length_fmap. Qed.

Lemma len_nonzero {V : Type} (d : dict V) (k : Page) :
  k ∈ keys d → ¬ (len d == 0)%Q.
Proof.
  intros Hk E. apply of_nat_eq_0 in E. apply nil_length_inv in E. subst d.
  by apply elem_of_nil in Hk.
Qed.

(** On a dict, [transition_model] returns the table of the probabilities the
    specification gives. *)
Lemma transition_model_eq (corpus : graph) (page : Page) (links : gset Page) (d : Q) :
  NoDup (keys corpus) →
  dict_get corpus page = Some links →
  transition_model corpus page d
  = Ok ((λ p, (p, spec_transition_prob corpus links d p)) <$> keys corpus).
Proof.
  intros ND Hget. unfold transition_model, getitem. rewrite Hget. simpl.
  assert (Hlen : ¬ (len corpus == 0)%Q).
  { apply len_nonzero with page. apply dict_get_elem in Hget.
    unfold keys. apply list_elem_of_fmap. by exists (page, links). }
  unfold spec_transition_prob.
  destruct (size links =? 0)%nat eqn:Hsz.
  - rewrite (for_in_tabulate (λ _, (1 / len corpus)%Q)); [done|done| |].
    + intros k _ Hk. by apply elem_of_nil in Hk.
    + intros a k _. by rewrite py_div_ok.
  - apply Nat.eqb_neq in Hsz.
    rewrite (py_div_ok d) by (unfold set_len; by rewrite of_nat_eq_0). simpl.
    rewrite py_div_ok by done. simpl.
    rewrite (for_in_tabulate (λ p, if bool_decide (p ∈ links)
       then ((1 - d) / len corpus + d / set_len links)%Q
       else ((1 - d) / len corpus)%Q)); [done|done| |].
    + intros k _ Hk. by apply elem_of_nil in Hk.
    + intros a k _. by destruct (bool_decide (k ∈ links)).
Qed.

(** ** Sums *)

Lemma fold_left_Qplus (xs : list Q) (a : Q) :
  (fold_left Qplus xs a == a + py_sum xs)%Q.
Proof.
  unfold py_sum. revert a. induction xs as [|x xs IH]; intros a; simpl.
  - lra.
  - rewrite (IH (a + x)%Q), (IH (0 + x)%Q). lra.
Qed.

Lemma py_sum_cons (x : Q) (xs : list Q) : (py_sum (x :: xs) == x + py_sum xs)%Q.
Proof. unfold py_sum at 1. simpl. rewrite fold_left_Qplus. lra. Qed.

Section sums.
Context {A : Type}.
Implicit Types (xs : list A) (f g : A → Q).

Lemma sum_over_nil f : sum_over [] f = 0%Q.
Proof. reflexivity. Qed.

Lemma sum_over_cons x xs f : (sum_over (x :: xs) f == f x + sum_over xs f)%Q.
Proof. unfold sum_over. simpl. apply py_sum_cons. Qed.

Lemma sum_over_ext xs f g :
  (∀ x, x ∈ xs → (f x == g x)%Q) → (sum_over xs f == sum_over xs g)%Q.
Proof.
  induction xs as [|x xs IH]; intros H; [reflexivity|].
  rewrite !sum_over_cons, IH, (H x) by (try left; intros; apply H; by right).
  reflexivity.
Qed.

Lemma sum_over_le xs f g :
  (∀ x, x ∈ xs → (f x <= g x)%Q) → (sum_over xs f <= sum_over xs g)%Q.
Proof.
  induction xs as [|x xs IH]; intros H; [apply Qle_refl|].
  rewrite !sum_over_cons.
  apply Qplus_le_compat; [apply H; left | apply IH; intros; apply H; by right].
Qed.

Lemma sum_over_nonneg xs f :
  (∀ x, x ∈ xs → (0 <= f x)%Q) → (0 <= sum_over xs f)%Q.
Proof.
  induction xs as [|x xs IH]; intros H; [apply Qle_refl|].
  rewrite sum_over_cons.
  assert (0 <= f x)%Q by (apply H; left).
  assert (0 <= sum_over xs f)%Q by (apply IH; intros; apply H; by right).
  lra.
Qed.

Lemma sum_over_const xs (c : Q) : (sum_over xs (λ _, c) == len xs * c)%Q.
Proof.
  induction xs as [|x xs IH].
  - rewrite sum_over_nil. unfold len. simpl. change (of_nat 0) with 0%Q. lra.
  - rewrite sum_over_cons, IH. unfold len. simpl length. rewrite of_nat_S. lra.
Qed.

Lemma sum_over_plus xs f g :
  (sum_over xs (λ x, f x + g x) == sum_over xs f + sum_over xs g)%Q.
Proof.
  induction xs as [|x xs IH]; [rewrite !sum_over_nil; lra|].
  rewrite !sum_over_cons, IH. lra.
Qed.

Lemma sum_over_scale xs (c : Q) f :
  (sum_over xs (λ x, c * f x) == c * sum_over xs f)%Q.
Proof.
  induction xs as [|x xs IH]; [rewrite !sum_over_nil; lra|].
  rewrite !sum_over_cons, IH. lra.
Qed.

Lemma sum_over_term_le xs f x :
  (∀ y, y ∈ xs → (0 <= f y)%Q) → x ∈ xs → (f x <= sum_over xs f)%Q.
Proof.
  induction xs as [|y xs IH]; intros Hpos Hx; [by apply elem_of_nil in Hx|].
  rewrite sum_over_cons.
  assert (0 <= f y)%Q by (apply Hpos; left).
  assert (0 <= sum_over xs f)%Q
    by (apply sum_over_nonneg; intros; apply Hpos; by right).
  apply elem_of_cons in Hx as [->|Hx]; [lra|].
  assert (f x <= sum_over xs f)%Q by (apply IH; [intros; apply Hpos; by right|done]).
  lra.
Qed.

Lemma sum_over_abs xs f : (Qabs (sum_over xs f) <= sum_over xs (λ x, Qabs (f x)))%Q.
Proof.
  induction xs as [|x xs IH]; [rewrite !sum_over_nil; apply Qle_refl|].
  rewrite !sum_over_cons.
  eapply Qle_trans; [apply Qabs_triangle|]. lra.
Qed.

(** The sum of a condition's indicator counts the entries that meet it. *)
Lemma sum_over_indicator xs (P : A → Prop) `{∀ x, Decision (P x)} (c : Q) :
  (sum_over xs (λ x, if bool_decide (P x) then c else 0)
   == of_nat (length (filter P xs)) * c)%Q.
Proof.
  induction xs as [|x xs IH].
  - rewrite sum_over_nil. change (of_nat _) with 0%Q. lra.
  - rewrite sum_over_cons, IH. rewrite filter_cons.
    destruct (decide (P x)) as [HP|HP].
    + rewrite bool_decide_eq_true_2 by done. simpl length. rewrite of_nat_S. lra.
    + rewrite bool_decide_eq_false_2 by done. lra.
Qed.
End sums.

(** Exchanging two finite sums. *)
Lemma sum_over_swap {A B : Type} (xs : list A) (ys : list B) (f : A → B → Q) :
  (sum_over xs (λ x, sum_over ys (λ y, f x y))
   == sum_over ys (λ y, sum_over xs (λ x, f x y)))%Q.
Proof.
  induction xs as [|x xs IH].
  - rewrite sum_over_nil. symmetry.
    transitivity (sum_over ys (λ _, 0%Q)).
    + apply sum_over_ext. intros y _. reflexivity.
    + rewrite sum_over_const. lra.
  - rewrite sum_over_cons, IH, <- sum_over_plus.
    apply sum_over_ext. intros y _. by rewrite sum_over_cons.
Qed.

(** Counting the keys that lie in a set. *)
Lemma count_in_set_le (ks : list Page) (s : gset Page) :
  NoDup ks → (length (filter (.∈ s) ks) ≤ size s)%nat.
Proof.
  intros ND. unfold size, set_size. simpl.
  apply submseteq_length, NoDup_submseteq.
  - by apply NoDup_filter.
  - intros x Hx. apply list_elem_of_filter in Hx as [Hx _]. by apply elem_of_elements.
Qed.

Lemma count_in_set_eq (ks : list Page) (s : gset Page) :
  NoDup ks → (∀ x, x ∈ s → x ∈ ks) → length (filter (.∈ s) ks) = size s.
Proof.
  intros ND Hsub. apply Nat.le_antisymm; [by apply count_in_set_le|].
  unfold size, set_size. simpl.
  apply submseteq_length, NoDup_submseteq; [apply NoDup_elements|].
  intros x Hx. apply elem_of_elements in Hx.
  apply list_elem_of_filter. auto.
Qed.

Lemma py_sum_values_tabulate (g : Page → Q) (ks : list Page) :
  py_sum (values ((λ k, (k, g k)) <$> ks)) = sum_over ks g.
Proof. by rewrite values_tabulate. Qed.

Lemma link_graph_closed (corpus : graph) (page : Page) (links : gset Page) :
  link_graph corpus → (page, links) ∈ corpus →
  ∀ target, target ∈ links → target ∈ keys corpus.
Proof.
  intros [_ Hall] Hin target Ht.
  rewrite Forall_forall in Hall. specialize (Hall _ Hin). simpl in Hall.
  apply Hall in Ht. by apply elem_of_list_to_set in Ht.
Qed.

Lemma link_graph_two_cycle : link_graph two_cycle.
Proof.
  by_evaluation.
Qed.

Lemma link_graph_sink_graph : link_graph sink_graph.
Proof.
  by_evaluation.
Qed.

(** C3. For a page of the graph with outbound set [links], the transition
    model returns a mapping over the pages of the graph; every page gets
    1/|graph| when [links] is empty, and otherwise (1-damping)/|graph|, plus
    damping/|links| when it is a member of [links]. *)
Theorem transition_model_probabilities
    (corpus : graph) (page : Page) (links : gset Page) (damping : Q) :
  NoDup (keys corpus) →
  dict_get corpus page = Some links →
  (0 <= damping <= 1)%Q →
  ∃ tm, transition_model corpus page damping = Ok tm ∧
    ∀ p, p ∈ keys corpus →
      (size links = 0%nat → dict_get tm p = Some (1 / len corpus)%Q) ∧
      (size links ≠ 0%nat → p ∈ links →
         dict_get tm p
         = Some ((1 - damping) / len corpus + damping / set_len links)%Q) ∧
      (size links ≠ 0%nat → p ∉ links →
         dict_get tm p = Some ((1 - damping) / len corpus)%Q).
Proof.
  intros ND Hget _. eexists. split; [by apply transition_model_eq|].
  intros p Hp. rewrite dict_get_tabulate by done. unfold spec_transition_prob.
  repeat split.
  - intros ->. done.
  - intros Hsz Hin. apply Nat.eqb_neq in Hsz. rewrite Hsz.
    by rewrite bool_decide_eq_true_2.
  - intros Hsz Hin. apply Nat.eqb_neq in Hsz. rewrite Hsz.
    by rewrite bool_decide_eq_false_2.
Qed.

Lemma transition_model_probabilities_witness :
  ∃ tm, transition_model sink_graph "B" (85 # 100) = Ok tm ∧
    ∀ p, p ∈ keys sink_graph →
      (size ({["A"]} : gset Page) = 0%nat →
         dict_get tm p = Some (1 / len sink_graph)%Q) ∧
      (size ({["A"]} : gset Page) ≠ 0%nat → p ∈ ({["A"]} : gset Page) →
         dict_get tm p
         = Some ((1 - (85 # 100)) / len sink_graph
                 + (85 # 100) / set_len {["A"]})%Q) ∧
      (size ({["A"]} : gset Page) ≠ 0%nat → p ∉ ({["A"]} : gset Page) →
         dict_get tm p = Some ((1 - (85 # 100)) / len sink_graph)%Q).
Proof.
  apply (transition_model_probabilities sink_graph "B" {["A"]} (85 # 100)).
  - apply link_graph_sink_graph.
  - reflexivity.
  - split; discriminate.
Defined.

(** The probabilities of the specification add up to 1 over the pages. *)
Lemma spec_transition_prob_sum
    (corpus : graph) (page : Page) (links : gset Page) (damping : Q) :
  link_graph corpus →
  (page, links) ∈ corpus →
  (sum_over (keys corpus) (spec_transition_prob corpus links damping) == 1)%Q.
Proof.
  intros Hg Hin. pose proof Hg as [ND _].
  pose proof (link_graph_closed _ _ _ Hg Hin) as Hclosed.
  assert (Hlen : ¬ (len corpus == 0)%Q).
  { apply len_nonzero with page. apply list_elem_of_fmap. by exists (page, links). }
  unfold spec_transition_prob. destruct (size links =? 0)%nat eqn:Hsz.
  - rewrite sum_over_const, len_keys. by field.
  - apply Nat.eqb_neq in Hsz.
    rewrite (sum_over_ext _ _ (λ p, (1 - damping) / len corpus
               + (if bool_decide (p ∈ links) then damping / set_len links else 0))%Q)
      by (intros p _; destruct (bool_decide (p ∈ links)); lra).
    rewrite sum_over_plus, sum_over_const, len_keys.
    rewrite (sum_over_indicator _ (.∈ links)).
    rewrite count_in_set_eq by eauto.
    fold (set_len links).
    assert (¬ (set_len links == 0)%Q) by (unfold set_len; by rewrite of_nat_eq_0).
    by field.
Qed.

(** C4. For a page of a link graph, the values of the distribution that the
    transition model returns add up to 1, whether or not the page is a sink. *)
Theorem transition_model_sums_to_one
    (corpus : graph) (page : Page) (links : gset Page) (damping : Q) :
  link_graph corpus →
  dict_get corpus page = Some links →
  (0 <= damping <= 1)%Q →
  ∃ tm, transition_model corpus page damping = Ok tm ∧
        (py_sum (values tm) == 1)%Q.
Proof.
  intros Hg Hget _. pose proof Hg as [ND _].
  eexists. split; [by apply transition_model_eq|].
  rewrite py_sum_values_tabulate.
  apply spec_transition_prob_sum with page; [done|]. by apply dict_get_elem.
Qed.

Lemma transition_model_sums_to_one_witness :
  ∃ tm, transition_model sink_graph "B" (85 # 100) = Ok tm ∧
        (py_sum (values tm) == 1)%Q.
Proof.
  apply (transition_model_sums_to_one sink_graph "B" {["A"]} (85 # 100)).
  - apply link_graph_sink_graph.
  - reflexivity.
  - split; discriminate.
Defined.

(** C6, as stated, fails for damping 0: in the two-page cycle the page "B",
    which "A" links to, and the page "A", which it does not link to, both
    get 1/2. *)
Lemma link_bonus_not_strict_at_zero_damping :
  link_graph two_cycle ∧
  dict_get two_cycle "A" = Some {["B"]} ∧
  size ({["B"]} : gset Page) ≠ 0%nat ∧
  (0 <= 0 <= 1)%Q ∧
  ("B" ∈ ({["B"]} : gset Page)) ∧ ("A" ∈ keys two_cycle) ∧
  ("A" ∉ ({["B"]} : gset Page)) ∧
  ∃ tm pt pu,
    transition_model two_cycle "A" 0 = Ok tm ∧
    dict_get tm "B" = Some pt ∧ dict_get tm "A" = Some pu ∧
    ¬ (pu < pt)%Q.
Proof.
  split; [apply link_graph_two_cycle|].
  split; [reflexivity|].
  split; [by_evaluation|].
  split; [split; discriminate|].
  split; [by_evaluation|].
  split; [by_evaluation|].
  split; [by_evaluation|].
  do 3 eexists.
  split; [vm_compute; reflexivity|]. split; [reflexivity|]. split; [reflexivity|].
  intros H. vm_compute in H. discriminate.
Qed.

(** C6, amended. For a damping factor in (0,1] and a page of the graph that
    has links, every page of the graph among its links gets strictly more
    probability than every page of the graph outside them, the probabilities
    taken as exact rationals.  (In binary64 a bonus too small to change the
    base term is lost in the sum, and the two are equal.) *)
Theorem transition_model_link_bonus
    (corpus : graph) (page : Page) (links : gset Page) (damping : Q)
    (target other : Page) :
  NoDup (keys corpus) →
  dict_get corpus page = Some links →
  (0 < damping <= 1)%Q →
  target ∈ keys corpus → target ∈ links →
  other ∈ keys corpus → other ∉ links →
  ∃ tm pt pu,
    transition_model corpus page damping = Ok tm ∧
    dict_get tm target = Some pt ∧ dict_get tm other = Some pu ∧
    (pu < pt)%Q.
Proof.
  intros ND Hget [Hd _] Htk Ht Hok Ho.
  do 3 eexists. split; [by apply transition_model_eq|].
  rewrite !dict_get_tabulate by done. split; [done|]. split; [done|].
  unfold spec_transition_prob.
  assert (Hsz : size links ≠ 0%nat).
  { intros E. apply size_empty_inv in E. apply leibniz_equiv in E. subst links.
    by apply not_elem_of_empty in Ht. }
  apply Nat.eqb_neq in Hsz as Hsz'. rewrite Hsz'.
  rewrite (bool_decide_eq_true_2 (target ∈ links)) by done.
  rewrite (bool_decide_eq_false_2 (other ∈ links)) by done.
  assert (0 < damping / set_len links)%Q; [|lra].
  apply Qlt_shift_div_l; [|lra].
  apply of_nat_pos. lia.
Qed.

Lemma transition_model_link_bonus_witness :
  ∃ tm pt pu,
    transition_model two_cycle "A" (85 # 100) = Ok tm ∧
    dict_get tm "B" = Some pt ∧ dict_get tm "A" = Some pu ∧
    (pu < pt)%Q.
Proof.
  apply (transition_model_link_bonus two_cycle "A" {["B"]} (85 # 100) "B" "A").
  - by_evaluation.
  - reflexivity.
  - split; [reflexivity | discriminate].
  - by_evaluation.
  - by_evaluation.
  - by_evaluation.
  - by_evaluation.
Defined.

(** ** The random generator *)

Lemma random_choice_ok {A : Type} (seq : list A) (w : world) :
  seq ≠ [] →
  ∃ x w', random_choice seq w = Ok (x, w') ∧ x ∈ seq ∧
          corpus_obj w' = corpus_obj w.
Proof.
  destruct seq as [|a seq']; [done|]. intros _.
  eexists _, _. split; [reflexivity|]. split; [|done].
  apply list_elem_of_In, nth_In, Nat.mod_upper_bound. simpl. lia.
Qed.

Lemma random_choice_empty {A : Type} (w : world) :
  random_choice (@nil A) w = Raise IndexError.
Proof. reflexivity. Qed.

Lemma length_accumulate_from (a : Q) (ws : list Q) :
  length (accumulate_from a ws) = length ws.
Proof. revert a. induction ws as [|x ws IH]; intros a; simpl; [done|]. by rewrite IH. Qed.

Lemma length_accumulate (ws : list Q) : length (accumulate ws) = length ws.
Proof. destruct ws; simpl; [done|]. by rewrite length_accumulate_from. Qed.

Lemma last_accumulate_from (a : Q) (ws : list Q) :
  ∃ total, last (a :: accumulate_from a ws) = Some total ∧
           (total == a + py_sum ws)%Q.
Proof.
  revert a. induction ws as [|x ws IH]; intros a.
  - exists a. split; [done|]. unfold py_sum. simpl. lra.
  - destruct (IH (a + x)%Q) as (total & Hlast & Htot).
    exists total. split.
    + simpl. simpl in Hlast. exact Hlast.
    + rewrite Htot, py_sum_cons. lra.
Qed.

Lemma last_accumulate (ws : list Q) :
  ws ≠ [] → ∃ total, last (accumulate ws) = Some total ∧ (total == py_sum ws)%Q.
Proof.
  destruct ws as [|x ws]; [done|]. intros _.
  destruct (last_accumulate_from x ws) as (total & Hlast & Htot).
  exists total. split; [exact Hlast|]. by rewrite Htot, py_sum_cons.
Qed.

Lemma bisect_le (a : list Q) (x : Q) (hi : nat) : (bisect a x hi ≤ hi)%nat.
Proof.
  revert a. induction hi as [|hi IH]; intros [|c a]; simpl; try lia.
  destruct (Qle_bool c x); [|lia]. specialize (IH a). lia.
Qed.

Lemma random_choices1_ok {A : Type}
    (population : list A) (weights : list Q) (w : world) :
  length weights = length population →
  population ≠ [] →
  (0 < py_sum weights)%Q →
  ∃ x w', random_choices1 population weights w = Ok (x, w') ∧ x ∈ population ∧
          corpus_obj w' = corpus_obj w.
Proof.
  intros Hlen Hne Hpos. unfold random_choices1.
  rewrite length_accumulate, Hlen, Nat.eqb_refl. simpl.
  destruct (last_accumulate weights) as (total & -> & Htot).
  { intros ->. destruct population; simpl in Hlen; done. }
  assert (Hb : Qle_bool total 0 = false).
  { apply not_true_iff_false. rewrite Qle_bool_iff, Htot. by apply Qlt_not_le. }
  rewrite Hb. unfold mbind, M_bind, next_random. cbv beta iota.
  set (i := bisect _ _ _).
  assert (Hi : (i < length population)%nat).
  { pose proof (bisect_le (accumulate weights)
      (random_unit (rng w 0%nat) * total)%Q (length population - 1)) as Hle.
    destruct population; [done|]. simpl in *. unfold i. lia. }
  destruct (lookup_lt_is_Some_2 population i Hi) as [x Hx].
  exists x, (World (corpus_obj w) (λ j, rng w (S j))).
  split; [|split; [by eapply list_elem_of_lookup_2|done]].
  by rewrite Hx.
Qed.

(** ** Running a computation *)

Section run.
Context {A B : Type}.
Implicit Types (m : M A) (f : A → M B) (w : world).

Lemma bind_ok m f w a w' : m w = Ok (a, w') → (m ≫= f) w = f a w'.
Proof. unfold mbind, M_bind. by intros ->. Qed.

Lemma bind_raise m f w e : m w = Raise e → (m ≫= f) w = Raise e.
Proof. unfold mbind, M_bind. by intros ->. Qed.

Lemma bind_out_of_fuel m f w : m w = OutOfFuel → (m ≫= f) w = OutOfFuel.
Proof. unfold mbind, M_bind. by intros ->. Qed.

Lemma bind_lift_ok (r : result A) f w a : r = Ok a → (lift r ≫= f) w = f a w.
Proof. by intros ->. Qed.

Lemma bind_lift_raise (r : result A) f w e :
  r = Raise e → (lift r ≫= f) w = Raise e.
Proof. by intros ->. Qed.
End run.

Lemma bind_get_corpus {B : Type} (f : graph → M B) (w : world) :
  (get_corpus ≫= f) w = f (corpus_obj w) w.
Proof. reflexivity. Qed.

(** A loop keeps what every turn keeps. *)
Lemma for_in_invariant {A S : Type} (I : nat → S → world → Prop)
    (body : S → A → M S) (xs : list A) (s : S) (w : world) (i : nat) :
  I i s w →
  (∀ j s w x, I j s w → ∃ s' w', body s x w = Ok (s', w') ∧ I (Datatypes.S j) s' w') →
  ∃ s' w', for_in xs body s w = Ok (s', w') ∧ I (i + length xs)%nat s' w'.
Proof.
  intros HI Hstep. revert s w i HI.
  induction xs as [|x xs IH]; intros s w i HI; simpl.
  - exists s, w. by rewrite Nat.add_0_r.
  - destruct (Hstep i s w x HI) as (s1 & w1 & Hb & HI1).
    destruct (IH s1 w1 (Datatypes.S i) HI1) as (s2 & w2 & Hf & HI2).
    exists s2, w2. split; [by rewrite (bind_ok _ _ _ _ _ Hb)|].
    by rewrite Nat.add_succ_r.
Qed.

Lemma mapM_ok {A B : Type} (f : A → result B) (g : A → B) (xs : list A) :
  (∀ x, x ∈ xs → f x = Ok (g x)) → mapM f xs = Ok (g <$> xs).
Proof.
  induction xs as [|x xs IH]; intros H; simpl; [done|].
  rewrite H by left. simpl. rewrite IH by (intros; apply H; by right). done.
Qed.

Lemma mapM_raise_head {A B : Type} (f : A → result B) (x : A) (xs : list A) (e : exn) :
  f x = Raise e → mapM f (x :: xs) = Raise e.
Proof. intros H. simpl. by rewrite H. Qed.

(** ** The sampling estimator *)

Lemma total_count_cons (k : Page) (c : Z) (counts : dict Z) :
  total_count ((k, c) :: counts) = (c + total_count counts)%Z.
Proof. reflexivity. Qed.

Lemma total_count_dict_set (counts : dict Z) (k : Page) (c v : Z) :
  dict_get counts k = Some c →
  total_count (dict_set counts k v) = (total_count counts - c + v)%Z.
Proof.
  induction counts as [|[k' c'] counts IH]; [done|].
  cbn [dict_get dict_set]. destruct (decide (k' = k)) as [->|Hne].
  - intros [= ->]. rewrite !total_count_cons. lia.
  - intros Hget. rewrite !total_count_cons, IH by done. lia.
Qed.

Lemma nonneg_dict_set (counts : dict Z) (k : Page) (v : Z) :
  (0 ≤ v)%Z → Forall (λ c, 0 ≤ c)%Z (values counts) →
  Forall (λ c, 0 ≤ c)%Z (values (dict_set counts k v)).
Proof.
  intros Hv. unfold values.
  induction counts as [|[k' c'] counts IH]; simpl; intros Hall.
  - by constructor.
  - apply Forall_cons in Hall as [Hc Hall].
    destruct (decide (k' = k)); simpl; constructor; auto.
Qed.

Lemma dict_get_nonneg (counts : dict Z) (k : Page) (c : Z) :
  Forall (λ c, 0 ≤ c)%Z (values counts) → dict_get counts k = Some c → (0 ≤ c)%Z.
Proof.
  intros Hall Hget. apply dict_get_elem in Hget.
  rewrite Forall_forall in Hall. apply Hall.
  unfold values. apply list_elem_of_fmap. by exists (k, c).
Qed.

Lemma sample_step_ok (corpus : graph) (damping : Q)
    (i : nat) (st : dict Z * Page) (w : world) (x : Z) :
  link_graph corpus →
  sampling corpus i st w →
  ∃ st' w', sample_step damping st x w = Ok (st', w') ∧ sampling corpus (S i) st' w'.
Proof.
  intros Hg (Hw & Hkeys & Hcur & Htot & Hpos). destruct st as [counts cur]. simpl in *.
  pose proof Hg as [ND _].
  destruct (dict_get_is_Some corpus cur Hcur) as [links Hlinks].
  unfold sample_step. rewrite bind_get_corpus, Hw.
  rewrite (bind_lift_ok _ _ _ _ (transition_model_eq _ _ _ damping ND Hlinks)).
  rewrite keys_tabulate, values_tabulate.
  destruct (random_choices1_ok (keys corpus)
              (spec_transition_prob corpus links damping <$> keys corpus) w)
    as (next & w' & Hch & Hnext & Hw').
  { by rewrite length_fmap. }
  { intros E. rewrite E in Hcur. by apply elem_of_nil in Hcur. }
  { change (0 < sum_over (keys corpus) (spec_transition_prob corpus links damping))%Q.
    rewrite (spec_transition_prob_sum corpus cur) by (try apply dict_get_elem; done).
    done. }
  rewrite (bind_ok _ _ _ _ _ Hch).
  destruct (dict_get_is_Some counts next) as [c Hc]; [by rewrite Hkeys|].
  unfold getitem. rewrite Hc. simpl.
  eexists _, _. split; [reflexivity|].
  unfold sampling. simpl. split; [congruence|].
  split; [rewrite keys_dict_set_present; [done|by rewrite Hkeys]|].
  split; [done|].
  split; [rewrite (total_count_dict_set _ _ c) by done; lia|].
  apply nonneg_dict_set; [|done]. pose proof (dict_get_nonneg _ _ _ Hpos Hc). lia.
Qed.

Lemma total_count_zeros (ks : list Page) :
  total_count ((λ page, (page, 0%Z)) <$> ks) = 0%Z.
Proof.
  induction ks as [|k ks IH]; [done|].
  rewrite fmap_cons, total_count_cons, IH. done.
Qed.

(** The sampling loop runs to its end and leaves the counters of [n] draws
    (of none when [n] is not positive); what remains is the division. *)
Lemma sample_pagerank_run (w : world) (damping : Q) (n : Z) :
  link_graph (corpus_obj w) →
  corpus_obj w ≠ [] →
  ∃ counts w',
    keys counts = keys (corpus_obj w) ∧
    total_count counts = Z.of_nat (Z.to_nat n) ∧
    Forall (λ c, 0 ≤ c)%Z (values counts) ∧
    corpus_obj w' = corpus_obj w ∧
    sample_pagerank damping n w
    = lift (mapM (λ '(page, c),
              q ← inject_Z c /? inject_Z n; mret (page, q)) counts) w'.
Proof.
  intros Hg Hne. unfold sample_pagerank. rewrite bind_get_corpus.
  destruct (random_choice_ok (keys (corpus_obj w)) w) as (p0 & w0 & Hch & Hp0 & Hw0).
  { intros E. apply fmap_nil_inv in E. done. }
  rewrite (bind_ok _ _ _ _ _ Hch).
  destruct (for_in_invariant (sampling (corpus_obj w)) (sample_step damping)
              (seqZ 0 n) ((λ page, (page, 0%Z)) <$> keys (corpus_obj w), p0) w0 0)
    as ([counts cur] & w' & Hrun & Hw' & Hkeys & Hcur & Htot & Hpos).
  { unfold sampling. simpl. rewrite keys_tabulate, values_tabulate.
    repeat split; [done|done| |].
    - apply total_count_zeros.
    - apply Forall_fmap, Forall_true. simpl. lia. }
  { intros j s w1 x HI. by apply sample_step_ok. }
  rewrite (bind_ok _ _ _ _ _ Hrun). simpl in *.
  exists counts, w'. rewrite length_seqZ in Htot. done.
Qed.

Lemma sum_over_counts (counts : dict Z) (n : Z) :
  (sum_over counts (λ pc, inject_Z pc.2 / inject_Z n)
   == inject_Z (total_count counts) / inject_Z n)%Q.
Proof.
  induction counts as [|[k c] counts IH].
  - rewrite sum_over_nil. change (total_count []) with 0%Z.
    unfold Qdiv. by rewrite Qmult_0_l.
  - rewrite sum_over_cons, IH, total_count_cons, inject_Z_plus. simpl.
    unfold Qdiv. ring.
Qed.

Lemma inject_Z_eq_0 (n : Z) : (inject_Z n == 0)%Q ↔ n = 0%Z.
Proof. unfold Qeq. simpl. lia. Qed.

(** The division at the end, for a sample count other than 0. *)
Lemma sample_division_ok (counts : dict Z) (n : Z) :
  n ≠ 0%Z →
  mapM (λ '(page, c), q ← inject_Z c /? inject_Z n; mret (page, q)) counts
  = Ok ((λ pc, (pc.1, inject_Z pc.2 / inject_Z n)%Q) <$> counts).
Proof.
  intros Hn. apply mapM_ok. intros [page c] _.
  rewrite py_div_ok by by rewrite inject_Z_eq_0. done.
Qed.

(** C7, amended. For a non-empty link graph, a damping factor in [0,1] and
    [n >= 1], whatever the random generator produces, [sample_pagerank]
    returns a mapping whose values are visit counts divided by [n], the
    counts being non-negative integers that total [n]; taken as exact
    rationals the values are not negative and add up to 1.  (The binary64
    quotients need not add up to exactly 1.0.) *)
Theorem sample_pagerank_sums_to_one (w : world) (damping : Q) (n : Z) :
  link_graph (corpus_obj w) →
  corpus_obj w ≠ [] →
  (0 <= damping <= 1)%Q →
  (1 ≤ n)%Z →
  ∃ ranks w',
    sample_pagerank damping n w = Ok (ranks, w') ∧
    Forall (λ v, 0 <= v)%Q (values ranks) ∧
    (py_sum (values ranks) == 1)%Q ∧
    ∃ counts : dict Z,
      ranks = (λ pc, (pc.1, inject_Z pc.2 / inject_Z n)%Q) <$> counts ∧
      Forall (λ c, 0 ≤ c)%Z (values counts) ∧
      total_count counts = n.
Proof.
  intros Hg Hne _ Hn.
  destruct (sample_pagerank_run w damping n Hg Hne)
    as (counts & w' & Hkeys & Htot & Hpos & _ & ->).
  rewrite sample_division_ok by lia. simpl.
  rewrite Z2Nat.id in Htot by lia.
  eexists _, _. split; [reflexivity|].
  assert (Hn0 : (0 < inject_Z n)%Q) by (unfold Qlt; simpl; lia).
  split; [|split].
  - unfold values. rewrite <- list_fmap_compose. apply Forall_fmap.
    unfold values in Hpos. rewrite Forall_fmap in Hpos.
    eapply Forall_impl; [exact Hpos|]. intros [p c] Hc. simpl in *.
    apply Qle_shift_div_l; [done|]. unfold Qle. simpl. lia.
  - unfold values. rewrite <- list_fmap_compose.
    change (sum_over counts (λ pc, inject_Z pc.2 / inject_Z n) == 1)%Q.
    rewrite sum_over_counts, Htot. field. lra.
  - by exists counts.
Qed.

Lemma sample_pagerank_sums_to_one_witness :
  ∃ ranks w',
    sample_pagerank (85 # 100) 5 (World sink_graph zero_rng) = Ok (ranks, w') ∧
    Forall (λ v, 0 <= v)%Q (values ranks) ∧
    (py_sum (values ranks) == 1)%Q ∧
    ∃ counts : dict Z,
      ranks = (λ pc, (pc.1, inject_Z pc.2 / inject_Z 5)%Q) <$> counts ∧
      Forall (λ c, 0 ≤ c)%Z (values counts) ∧
      total_count counts = 5%Z.
Proof.
  apply (sample_pagerank_sums_to_one (World sink_graph zero_rng) (85 # 100) 5).
  - by_evaluation.
  - discriminate.
  - split; discriminate.
  - lia.
Defined.

(** C5, as stated, fails for a negative sample count: [sample_pagerank]
    with [n = -1] returns a mapping, every value of it 0. *)
Lemma sample_pagerank_negative_count_returns :
  (-1 ≤ 0)%Z ∧
  ∃ w', sample_pagerank (85 # 100) (-1) (World sink_graph zero_rng)
        = Ok ([("A", 0 # 1); ("B", 0 # 1)], w').
Proof.
  split; [lia|]. eexists. vm_compute. reflexivity.
Qed.

(** With a sample count that is not positive the loop makes no draw. *)
Lemma sample_pagerank_no_draw (w : world) (damping : Q) (n : Z) :
  corpus_obj w ≠ [] →
  (n ≤ 0)%Z →
  ∃ w', sample_pagerank damping n w
        = lift (mapM (λ '(page, c),
                  q ← inject_Z c /? inject_Z n; mret (page, q))
                ((λ page, (page, 0%Z)) <$> keys (corpus_obj w))) w'.
Proof.
  intros Hne Hn. unfold sample_pagerank. rewrite bind_get_corpus.
  destruct (random_choice_ok (keys (corpus_obj w)) w) as (p0 & w0 & Hch & _).
  { intros E. apply fmap_nil_inv in E. done. }
  rewrite (bind_ok _ _ _ _ _ Hch).
  unfold seqZ. rewrite Z2Nat.nonpos by done. simpl. by exists w0.
Qed.

(** C5, amended. On an empty graph both estimators raise, whatever the
    other arguments are, and [sample_pagerank] raises on a non-empty graph
    when [n] is 0.  When [n] is negative it does not raise: it makes no draw
    and returns the mapping that gives every page of the graph the value 0. *)
Theorem invalid_input_outcomes (w : world) (damping : Q) (n : Z) (fuel : nat) :
  (corpus_obj w = [] →
     sample_pagerank damping n w = Raise IndexError ∧
     iterate_pagerank fuel damping w = Raise ZeroDivisionError) ∧
  (corpus_obj w ≠ [] → n = 0%Z →
     sample_pagerank damping n w = Raise ZeroDivisionError) ∧
  (corpus_obj w ≠ [] → (n < 0)%Z →
     ∃ ranks w', sample_pagerank damping n w = Ok (ranks, w') ∧
       keys ranks = keys (corpus_obj w) ∧
       Forall (λ v, v == 0)%Q (values ranks)).
Proof.
  split; [|split].
  - destruct w as [corpus gen]. simpl. intros ->. done.
  - intros Hne ->.
    destruct (sample_pagerank_no_draw w damping 0 Hne) as (w' & ->); [done|].
    destruct (corpus_obj w) as [|[p links] corpus]; [done|].
    simpl keys. rewrite fmap_cons.
    erewrite mapM_raise_head; [done|]. by rewrite py_div_zero.
  - intros Hne Hn.
    destruct (sample_pagerank_no_draw w damping n Hne) as (w' & ->); [lia|].
    rewrite sample_division_ok by lia. simpl.
    eexists _, _. split; [reflexivity|]. split.
    + rewrite <- list_fmap_compose. apply keys_tabulate.
    + unfold values. rewrite <- !list_fmap_compose. apply Forall_fmap, Forall_true.
      intros page. simpl. unfold Qdiv. by rewrite Qmult_0_l.
Qed.

Lemma invalid_input_outcomes_witness :
  (sample_pagerank (85 # 100) 3 (World [] zero_rng) = Raise IndexError ∧
   iterate_pagerank 10 (85 # 100) (World [] zero_rng) = Raise ZeroDivisionError) ∧
  sample_pagerank (85 # 100) 0 (World sink_graph zero_rng)
  = Raise ZeroDivisionError ∧
  ∃ ranks w',
    sample_pagerank (85 # 100) (-3) (World sink_graph zero_rng) = Ok (ranks, w') ∧
    keys ranks = keys sink_graph ∧ Forall (λ v, v == 0)%Q (values ranks).
Proof.
  split; [|split].
  - by apply (invalid_input_outcomes (World [] zero_rng) (85 # 100) 3 10).
  - apply (invalid_input_outcomes (World sink_graph zero_rng) (85 # 100) 0 0).
    + discriminate.
    + reflexivity.
  - apply (invalid_input_outcomes (World sink_graph zero_rng) (85 # 100) (-3) 0).
    + discriminate.
    + lia.
Defined.

(** ** The iterative estimator *)

Lemma keys_normalized (corpus : graph) : keys (normalized corpus) = keys corpus.
Proof. unfold normalized, keys. by rewrite <- list_fmap_compose. Qed.

Lemma dict_set_middle {V : Type} (d1 d2 : dict V) (k : Page) (v0 v : V) :
  k ∉ keys d1 → dict_set (d1 ++ (k, v0) :: d2) k v = d1 ++ (k, v) :: d2.
Proof.
  unfold keys. induction d1 as [|[k' v'] d1 IH]; simpl; intros Hk.
  - by rewrite decide_True.
  - apply not_elem_of_cons in Hk as [Hne Hk].
    rewrite decide_False by done. by rewrite IH.
Qed.

(** The normalization loop rewrites the graph object, and nothing else. *)
Lemma normalize_sinks_run (w : world) :
  NoDup (keys (corpus_obj w)) →
  normalize_sinks w = Ok (tt, World (normalized (corpus_obj w)) (rng w)).
Proof.
  intros ND. unfold normalize_sinks. rewrite bind_get_corpus.
  destruct w as [corpus gen]. simpl in *.
  set (norm := λ item : Page * gset Page,
         (item.1, if (size item.2 =? 0)%nat
                  then list_to_set (keys corpus) else item.2)).
  assert (Hgen : ∀ done todo, corpus = done ++ todo →
    for_in todo (λ (_ : unit) '(page, links),
        if (size links =? 0)%nat
        then c ← get_corpus; set_corpus_item page (list_to_set (keys c))
        else mret tt) tt (World ((norm <$> done) ++ todo) gen)
    = Ok (tt, World (norm <$> corpus) gen)).
  { intros done todo. revert done.
    induction todo as [|[page links] todo IH]; intros done Hsplit.
    - rewrite app_nil_r in *. by subst.
    - assert (Hpage : page ∉ keys (norm <$> done)).
      { rewrite Hsplit in ND. unfold keys in *. rewrite fmap_app in ND.
        apply NoDup_app in ND as (_ & Hdisj & _).
        rewrite <- list_fmap_compose. intros Hin. apply (Hdisj page Hin). left. }
      specialize (IH (done ++ [(page, links)])).
      rewrite fmap_app, <- !app_assoc in IH. simpl in IH.
      specialize (IH Hsplit).
      assert (Hkeys : keys ((norm <$> done) ++ (page, links) :: todo) = keys corpus).
      { unfold keys. rewrite fmap_app, <- list_fmap_compose, Hsplit, fmap_app.
        f_equal. }
      cbn [for_in].
      rewrite (bind_ok _ _ _ tt
                 (World ((norm <$> done) ++ norm (page, links) :: todo) gen));
        [exact IH|].
      assert (Hn : norm (page, links)
                   = (page, if (size links =? 0)%nat
                            then list_to_set (keys corpus) else links)) by done.
      rewrite Hn. destruct (size links =? 0)%nat eqn:Hsz; [|done].
      rewrite bind_get_corpus. unfold set_corpus_item. simpl.
      rewrite dict_set_middle by done. by rewrite Hkeys. }
  exact (Hgen [] corpus eq_refl).
Qed.

Lemma getitem_rank_of (ranks : dict Q) (k : Page) :
  k ∈ keys ranks → getitem ranks k = Ok (rank_of ranks k).
Proof.
  intros Hk. unfold getitem, rank_of.
  by destruct (dict_get_is_Some ranks k Hk) as [v ->].
Qed.

Lemma getitem_NoDup {V : Type} (d : dict V) (k : Page) (v : V) :
  NoDup (keys d) → (k, v) ∈ d → getitem d k = Ok v.
Proof. intros ND Hin. unfold getitem. by rewrite (dict_get_NoDup d k v). Qed.

Lemma uniform_ranks_run (corpus : graph) :
  mapM (λ page, v ← 1 /? len corpus; mret (page, v)) (keys corpus)
  = Ok (uniform_ranks corpus).
Proof.
  apply mapM_ok. intros page Hpage.
  rewrite py_div_ok by by apply len_nonzero with page. done.
Qed.

Lemma rank_sum_from (corpus todo : graph) (ranks : dict Q) (page : Page) (acc : Q) :
  NoDup (keys corpus) →
  keys ranks = keys corpus →
  (∀ item, item ∈ todo → item ∈ corpus) →
  for_in (keys todo) (λ acc link,
    links ← getitem corpus link;
    if bool_decide (page ∈ links) then
      r ← getitem ranks link;
      t ← r /? set_len links;
      mret (acc + t)%Q
    else mret acc) acc
  = Ok (fold_left (λ acc item, if bool_decide (page ∈ item.2)
                               then (acc + rank_of ranks item.1 / set_len item.2)%Q
                               else acc) todo acc).
Proof.
  intros ND Hkeys. revert acc.
  induction todo as [|[q links] todo IH]; intros acc Hsub; [done|].
  simpl. rewrite (getitem_NoDup corpus q links) by (try apply Hsub; by try left).
  simpl. assert (Hq : q ∈ keys ranks).
  { rewrite Hkeys. apply list_elem_of_fmap. exists (q, links). split; [done|].
    apply Hsub. left. }
  destruct (bool_decide (page ∈ links)) eqn:Hin.
  - apply bool_decide_eq_true in Hin.
    rewrite getitem_rank_of by done. simpl.
    rewrite py_div_ok.
    + simpl. apply IH. intros item Hitem. apply Hsub. by right.
    + unfold set_len. rewrite of_nat_eq_0. intros E.
      apply size_empty_inv in E. apply leibniz_equiv in E. subst links.
      by apply not_elem_of_empty in Hin.
  - simpl. apply IH. intros item Hitem. apply Hsub. by right.
Qed.

Lemma rank_sum_eq (corpus : graph) (ranks : dict Q) (page : Page) :
  NoDup (keys corpus) →
  keys ranks = keys corpus →
  rank_sum corpus ranks page = Ok (rank_sum_value corpus ranks page).
Proof. intros ND Hkeys. by apply rank_sum_from. Qed.

Lemma new_ranks_pass_eq (corpus : graph) (damping chose : Q) (ranks : dict Q) :
  NoDup (keys corpus) →
  keys ranks = keys corpus →
  new_ranks_pass corpus damping chose ranks
  = Ok (next_ranks corpus damping chose ranks).
Proof.
  intros ND Hkeys. unfold new_ranks_pass, next_ranks.
  rewrite (for_in_tabulate
             (λ page, (chose + damping * rank_sum_value corpus ranks page)%Q));
    [done|done| |].
  - intros k _ Hk. by apply elem_of_nil in Hk.
  - intros a k _. by rewrite rank_sum_eq.
Qed.

Lemma keys_next_ranks (corpus : graph) (damping chose : Q) (ranks : dict Q) :
  keys (next_ranks corpus damping chose ranks) = keys corpus.
Proof. apply keys_tabulate. Qed.

Lemma all_close_from (new_ranks ranks : dict Q) (ps : list Page) :
  (∀ p, p ∈ ps → p ∈ keys new_ranks ∧ p ∈ keys ranks) →
  (fix go (ps : list Page) : result bool :=
     match ps with
     | [] => Ok true
     | page :: ps' =>
         a ← getitem new_ranks page;
         b ← getitem ranks page;
         if Qlt_bool (Qabs (a - b)) (1 # 1000) then go ps' else Ok false
     end) ps
  = Ok (forallb (λ page,
          Qlt_bool (Qabs (rank_of new_ranks page - rank_of ranks page)) (1 # 1000)) ps).
Proof.
  induction ps as [|p ps IH]; intros Hsub; [done|].
  destruct (Hsub p) as [Hp1 Hp2]; [left|].
  rewrite !getitem_rank_of by done. simpl.
  destruct (Qlt_bool _ _); [|done].
  apply IH. intros q Hq. apply Hsub. by right.
Qed.

Lemma all_close_eq (new_ranks ranks : dict Q) :
  keys new_ranks = keys ranks →
  all_close new_ranks ranks = Ok (close_enough new_ranks ranks).
Proof.
  intros Hkeys. apply all_close_from. intros p Hp. by rewrite Hkeys.
Qed.

(** One turn of [while True]. *)
Lemma iterate_loop_step (fuel : nat) (damping chose : Q) (ranks : dict Q) (w : world) :
  NoDup (keys (corpus_obj w)) →
  keys ranks = keys (corpus_obj w) →
  iterate_loop (S fuel) damping chose ranks w
  = if close_enough (next_ranks (corpus_obj w) damping chose ranks) ranks
    then Ok ((ranks, next_ranks (corpus_obj w) damping chose ranks), w)
    else iterate_loop fuel damping chose
           (next_ranks (corpus_obj w) damping chose ranks) w.
Proof.
  intros ND Hkeys. cbn [iterate_loop]. rewrite bind_get_corpus.
  rewrite (bind_lift_ok _ _ _ _ (new_ranks_pass_eq _ damping chose _ ND Hkeys)).
  rewrite (bind_lift_ok _ _ _ _ (all_close_eq _ _
             (eq_trans (keys_next_ranks _ _ _ _) (eq_sym Hkeys)))).
  by destruct (close_enough _ _).
Qed.

Lemma len_normalized (corpus : graph) : len (normalized corpus) = len corpus.
Proof. unfold len, normalized. by rewrite length_fmap. Qed.

Lemma keys_ranks_after (corpus : graph) (damping chose : Q) (k : nat) (ranks : dict Q) :
  keys ranks = keys corpus →
  keys (ranks_after corpus damping chose k ranks) = keys corpus.
Proof. intros H. destruct k; [done|]. apply keys_next_ranks. Qed.

Lemma ranks_after_S (corpus : graph) (damping chose : Q) (k : nat) (ranks : dict Q) :
  ranks_after corpus damping chose (S k) ranks
  = ranks_after corpus damping chose k (next_ranks corpus damping chose ranks).
Proof. unfold ranks_after. by rewrite Nat.iter_succ_r. Qed.

(** Everything before the loop: uniform ranks, the graph object rewritten,
    the random-jump term. *)
Lemma iterate_locals_run (fuel : nat) (damping : Q) (w : world) :
  NoDup (keys (corpus_obj w)) →
  corpus_obj w ≠ [] →
  iterate_locals fuel damping w
  = iterate_loop fuel damping ((1 - damping) / len (normalized (corpus_obj w)))
      (uniform_ranks (corpus_obj w))
      (World (normalized (corpus_obj w)) (rng w)).
Proof.
  intros ND Hne. unfold iterate_locals. rewrite bind_get_corpus.
  rewrite (bind_lift_ok _ _ _ _ (uniform_ranks_run _)).
  rewrite (bind_ok _ _ _ _ _ (normalize_sinks_run w ND)).
  rewrite bind_get_corpus. simpl corpus_obj.
  erewrite bind_lift_ok; [done|].
  apply py_div_ok. rewrite len_normalized. unfold len. rewrite of_nat_eq_0.
  intros E. by apply nil_length_inv in E.
Qed.

Lemma iterate_locals_empty (fuel : nat) (damping : Q) (w : world) :
  corpus_obj w = [] → iterate_locals fuel damping w = Raise ZeroDivisionError.
Proof. destruct w as [corpus gen]. simpl. by intros ->. Qed.

Section loop.
Variables (damping chose : Q) (w : world).
Hypothesis ND : NoDup (keys (corpus_obj w)).

Let next := next_ranks (corpus_obj w) damping chose.
Let after := ranks_after (corpus_obj w) damping chose.

(** If pass [k] would meet the convergence test, the loop stops at pass
    [k] at the latest, with the ranks before and after the pass at which
    it stops. *)
Lemma iterate_loop_stops (k fuel : nat) (ranks : dict Q) :
  keys ranks = keys (corpus_obj w) →
  close_enough (after (S k) ranks) (after k ranks) = true →
  (k < fuel)%nat →
  ∃ j, (j ≤ k)%nat ∧
    close_enough (after (S j) ranks) (after j ranks) = true ∧
    iterate_loop fuel damping chose ranks w
    = Ok ((after j ranks, after (S j) ranks), w).
Proof.
  revert fuel ranks. induction k as [|k IH]; intros fuel ranks Hkeys Hclose Hfuel.
  - destruct fuel as [|fuel]; [lia|]. exists 0%nat.
    rewrite iterate_loop_step by done. simpl in *. by rewrite Hclose.
  - destruct fuel as [|fuel]; [lia|]. rewrite iterate_loop_step by done.
    destruct (close_enough (next_ranks (corpus_obj w) damping chose ranks) ranks)
      eqn:Hnow.
    + exists 0%nat. split; [lia|]. done.
    + destruct (IH fuel (next ranks)) as (j & Hj & Hcj & Hrun).
      * apply keys_next_ranks.
      * assert (E1 : after (S (S k)) ranks = after (S k) (next ranks))
          by apply ranks_after_S.
        assert (E2 : after (S k) ranks = after k (next ranks))
          by apply ranks_after_S.
        by rewrite <- E1, <- E2.
      * lia.
      * exists (S j).
        assert (E1 : after (S (S j)) ranks = after (S j) (next ranks))
          by apply ranks_after_S.
        assert (E2 : after (S j) ranks = after j (next ranks))
          by apply ranks_after_S.
        rewrite E1, E2. split; [lia|]. done.
Qed.

(** More fuel does not change a result. *)
Lemma iterate_loop_fuel (fuel fuel' : nat) (ranks : dict Q) (out : dict Q * dict Q * world) :
  keys ranks = keys (corpus_obj w) →
  iterate_loop fuel damping chose ranks w = Ok out →
  (fuel ≤ fuel')%nat →
  iterate_loop fuel' damping chose ranks w = Ok out.
Proof.
  revert fuel' ranks. induction fuel as [|fuel IH]; intros fuel' ranks Hkeys Hrun Hle.
  - done.
  - destruct fuel' as [|fuel']; [lia|].
    rewrite iterate_loop_step in Hrun by done.
    rewrite iterate_loop_step by done.
    destruct (close_enough (next_ranks (corpus_obj w) damping chose ranks) ranks);
      [done|].
    apply IH; [apply keys_next_ranks|done|lia].
Qed.

(** When the loop stops, its locals are the ranks of some pass and the
    ranks of the pass after it, within 0.001 of each other at every page;
    the world is as it was. *)
Lemma iterate_loop_result (fuel : nat) (ranks pagerank_dict new_ranks : dict Q)
    (w' : world) :
  keys ranks = keys (corpus_obj w) →
  iterate_loop fuel damping chose ranks w = Ok ((pagerank_dict, new_ranks), w') →
  w' = w ∧
  (∃ j, (j < fuel)%nat ∧ pagerank_dict = after j ranks) ∧
  new_ranks = next pagerank_dict ∧
  close_enough new_ranks pagerank_dict = true.
Proof.
  revert ranks. induction fuel as [|fuel IH]; intros ranks Hkeys Hrun; [done|].
  rewrite iterate_loop_step in Hrun by done.
  destruct (close_enough (next_ranks (corpus_obj w) damping chose ranks) ranks)
    eqn:Hclose.
  - injection Hrun as <- <- <-. split; [done|]. split; [|done].
    exists 0%nat. split; [lia|done].
  - apply IH in Hrun as (Hw & (j & Hj & Hpr) & Hnr & Hc); [|apply keys_next_ranks].
    split; [done|]. split; [|done].
    exists (S j). split; [lia|]. unfold after. by rewrite ranks_after_S.
Qed.
End loop.

(** ** The update is a contraction *)

Lemma sum_over_fmap {A B : Type} (f : A → B) (g : B → Q) (xs : list A) :
  sum_over (f <$> xs) g = sum_over xs (g ∘ f).
Proof. unfold sum_over. by rewrite <- list_fmap_compose. Qed.

Lemma of_nat_le (m n : nat) : (m ≤ n)%nat → (of_nat m <= of_nat n)%Q.
Proof. unfold of_nat, Qle. simpl. lia. Qed.

Lemma Qabs_div_of_nat (x : Q) (n : nat) : (Qabs (x / of_nat n) == Qabs x / of_nat n)%Q.
Proof.
  unfold Qdiv. rewrite Qabs_Qmult.
  rewrite (Qabs_pos (/ of_nat n)); [reflexivity|].
  apply Qinv_le_0_compat, of_nat_nonneg.
Qed.

Lemma share_le (m n : nat) (y : Q) :
  (m ≤ n)%nat → (0 <= y)%Q → (of_nat m * (y / of_nat n) <= y)%Q.
Proof.
  intros Hmn Hy. destruct n as [|n].
  - replace m with 0%nat by lia. change (of_nat 0) with 0%Q. lra.
  - assert (Hn : (0 < of_nat (S n))%Q) by (apply of_nat_pos; lia).
    assert (Hm : (of_nat m <= of_nat (S n))%Q) by by apply of_nat_le.
    assert (Hq : (0 <= y / of_nat (S n))%Q) by by apply Qle_shift_div_l; lra.
    apply Qle_trans with (of_nat (S n) * (y / of_nat (S n)))%Q.
    + by apply Qmult_le_compat_r.
    + apply Qle_lteq. right. field. lra.
Qed.

Lemma fold_left_inflow (todo : graph) (ρ : Page → Q) (page : Page) (acc : Q) :
  (fold_left (λ acc item, if bool_decide (page ∈ item.2)
                          then (acc + ρ item.1 / set_len item.2)%Q
                          else acc) todo acc
   == acc + inflow todo ρ page)%Q.
Proof.
  unfold inflow. revert acc. induction todo as [|[q links] todo IH]; intros acc.
  - rewrite sum_over_nil. simpl. lra.
  - simpl fold_left. rewrite IH, sum_over_cons. simpl.
    destruct (bool_decide (page ∈ links)); lra.
Qed.

Lemma rank_sum_value_inflow (corpus : graph) (ranks : dict Q) (page : Page) :
  (rank_sum_value corpus ranks page == inflow corpus (rank_of ranks) page)%Q.
Proof. unfold rank_sum_value. rewrite fold_left_inflow. lra. Qed.

Lemma inflow_sub (corpus : graph) (ρ σ : Page → Q) (page : Page) :
  (inflow corpus ρ page - inflow corpus σ page
   == inflow corpus (λ q, ρ q - σ q) page)%Q.
Proof.
  unfold inflow. induction corpus as [|[q links] corpus IH].
  - rewrite !sum_over_nil. lra.
  - rewrite !sum_over_cons, <- IH. simpl.
    destruct (bool_decide (page ∈ links)); [|lra]. unfold Qdiv. ring.
Qed.

(** The links carry no more rank into the pages than the pages hold. *)
Lemma inflow_abs_sum (corpus : graph) (ρ : Page → Q) :
  NoDup (keys corpus) →
  (sum_over (keys corpus) (λ page, Qabs (inflow corpus ρ page))
   <= sum_over (keys corpus) (λ q, Qabs (ρ q)))%Q.
Proof.
  intros ND. set (K := keys corpus).
  eapply Qle_trans.
  { apply (sum_over_le K _ (λ page, sum_over corpus (λ item,
        if bool_decide (page ∈ item.2)
        then Qabs (ρ item.1) / set_len item.2 else 0)%Q)).
    intros page _. unfold inflow.
    eapply Qle_trans; [apply sum_over_abs|].
    apply sum_over_le. intros [q links] _. simpl.
    destruct (bool_decide (page ∈ links)); [|done].
    unfold set_len. rewrite Qabs_div_of_nat. apply Qle_refl. }
  rewrite sum_over_swap.
  unfold K at 2. unfold keys. rewrite sum_over_fmap.
  apply sum_over_le. intros [q links] _. simpl.
  rewrite (sum_over_indicator K (.∈ links)).
  apply share_le; [by apply count_in_set_le|apply Qabs_nonneg].
Qed.

Lemma rank_of_tabulate (g : Page → Q) (ks : list Page) (p : Page) :
  p ∈ ks → rank_of ((λ k, (k, g k)) <$> ks) p = g p.
Proof. intros Hp. unfold rank_of. by rewrite dict_get_tabulate. Qed.

Lemma rank_of_next (corpus : graph) (damping chose : Q) (ranks : dict Q) (p : Page) :
  p ∈ keys corpus →
  (rank_of (next_ranks corpus damping chose ranks) p
   == chose + damping * inflow corpus (rank_of ranks) p)%Q.
Proof.
  intros Hp. unfold next_ranks.
  rewrite (rank_of_tabulate
             (λ page, (chose + damping * rank_sum_value corpus ranks page)%Q)) by done.
  by rewrite rank_sum_value_inflow.
Qed.

Lemma decay_step (a n d : Q) :
  (0 <= a)%Q → (0 <= n)%Q → (0 <= d)%Q → (d <= 1)%Q →
  (d * a * (1 + (n + 1) * (1 - d)) <= a * (1 + n * (1 - d)))%Q.
Proof.
  intros Ha Hn Hd0 Hd1.
  assert (d * (1 + (n + 1) * (1 - d)) <= 1 + n * (1 - d))%Q.
  { assert (0 <= (n + 1) * ((1 - d) * (1 - d)))%Q; [|lra].
    apply Qmult_le_0_compat; [lra|]. apply Qmult_le_0_compat; lra. }
  assert (a * (d * (1 + (n + 1) * (1 - d))) <= a * (1 + n * (1 - d)))%Q; [|lra].
  rewrite !(Qmult_comm a). by apply Qmult_le_compat_r.
Qed.

Section contraction.
Variables (corpus : graph) (damping chose : Q).
Hypothesis ND : NoDup (keys corpus).
Hypothesis Hd0 : (0 <= damping)%Q.
Hypothesis Hd1 : (damping <= 1)%Q.

Let next := next_ranks corpus damping chose.
Let after := ranks_after corpus damping chose.

(** A pass shrinks the total change by the damping factor. *)
Lemma change_contracts (ranks ranks' : dict Q) :
  (change (keys corpus) (next ranks) (next ranks')
   <= damping * change (keys corpus) ranks ranks')%Q.
Proof.
  unfold change.
  eapply Qle_trans; [|rewrite !(Qmult_comm damping);
    apply Qmult_le_compat_r; [|exact Hd0];
    apply (inflow_abs_sum corpus (λ q, rank_of ranks' q - rank_of ranks q)%Q ND)].
  rewrite (Qmult_comm _ damping).
  rewrite <- sum_over_scale. apply sum_over_le. intros p Hp. unfold next.
  rewrite !rank_of_next by done.
  rewrite <- inflow_sub.
  setoid_replace (chose + damping * inflow corpus (rank_of ranks') p
                  - (chose + damping * inflow corpus (rank_of ranks) p))%Q
    with (damping * (inflow corpus (rank_of ranks') p
                     - inflow corpus (rank_of ranks) p))%Q
    using relation Qeq by ring.
  rewrite Qabs_Qmult, (Qabs_pos damping) by done. apply Qle_refl.
Qed.

Lemma change_nonneg (ks : list Page) (ranks ranks' : dict Q) :
  (0 <= change ks ranks ranks')%Q.
Proof. apply sum_over_nonneg. intros p _. apply Qabs_nonneg. Qed.

(** After [k] passes the change of a pass is at most the first change
    divided by [1 + k (1 - damping)]. *)
Lemma change_decay (ranks : dict Q) (k : nat) :
  (change (keys corpus) (after k ranks) (after (S k) ranks)
     * (1 + of_nat k * (1 - damping))
   <= change (keys corpus) ranks (next ranks))%Q.
Proof.
  induction k as [|k IH].
  - change (of_nat 0) with 0%Q. unfold after, ranks_after, next. simpl Nat.iter.
    apply Qle_lteq. right. ring.
  - pose proof (change_contracts (after k ranks) (after (S k) ranks)) as Hc.
    change (next (after k ranks)) with (after (S k) ranks) in Hc.
    change (next (after (S k) ranks)) with (after (S (S k)) ranks) in Hc.
    pose proof (change_nonneg (keys corpus) (after k ranks) (after (S k) ranks)) as H0.
    pose proof (change_nonneg (keys corpus) (after (S k) ranks) (after (S (S k)) ranks))
      as H1.
    pose proof (of_nat_nonneg k) as Hk.
    rewrite of_nat_S.
    set (a := change (keys corpus) (after k ranks) (after (S k) ranks)) in *.
    set (b := change (keys corpus) (after (S k) ranks) (after (S (S k)) ranks)) in *.
    set (n := of_nat k) in *.
    eapply Qle_trans; [|exact IH].
    apply Qle_trans with (damping * a * (1 + (n + 1) * (1 - damping)))%Q.
    + apply Qmult_le_compat_r; [exact Hc|].
      assert (0 <= (n + 1) * (1 - damping))%Q; [|lra].
      apply Qmult_le_0_compat; lra.
    + by apply decay_step.
Qed.
End contraction.

(** From uniform ranks, the first pass changes the ranks by at most 2 in
    total. *)
Lemma change_initial (corpus : graph) (damping chose : Q) (ranks : dict Q) :
  NoDup (keys corpus) →
  corpus ≠ [] →
  (0 <= damping <= 1)%Q →
  (chose == (1 - damping) / len corpus)%Q →
  (∀ q, q ∈ keys corpus → rank_of ranks q == 1 / len corpus)%Q →
  (change (keys corpus) ranks (next_ranks corpus damping chose ranks) <= 2)%Q.
Proof.
  intros ND Hne [Hd0 Hd1] Hchose Huni.
  assert (Hlen : (0 < len corpus)%Q).
  { apply of_nat_pos. destruct corpus; [done|simpl; lia]. }
  assert (Hinv : (0 <= 1 / len corpus)%Q) by (apply Qle_shift_div_l; lra).
  assert (Hsum0 : (sum_over (keys corpus) (λ q, Qabs (rank_of ranks q)) == 1)%Q).
  { rewrite (sum_over_ext _ _ (λ _, 1 / len corpus)%Q).
    - rewrite sum_over_const, len_keys. field. lra.
    - intros q Hq. rewrite Huni by done. by apply Qabs_pos. }
  pose proof (inflow_abs_sum corpus (rank_of ranks) ND) as Hin.
  rewrite Hsum0 in Hin.
  unfold change.
  apply Qle_trans with
    (sum_over (keys corpus) (λ p,
       (chose + damping * Qabs (inflow corpus (rank_of ranks) p))
       + Qabs (rank_of ranks p)))%Q.
  - apply sum_over_le. intros p Hp. rewrite rank_of_next by done.
    assert (0 <= chose)%Q by (rewrite Hchose; apply Qle_shift_div_l; lra).
    pose proof (Qabs_nonneg (inflow corpus (rank_of ranks) p)) as Hn.
    pose proof (Qle_Qabs (inflow corpus (rank_of ranks) p)) as Hu.
    pose proof (Qle_Qabs (- inflow corpus (rank_of ranks) p)) as Hl.
    rewrite Qabs_opp in Hl.
    pose proof (Qabs_nonneg (rank_of ranks p)) as Hn'.
    pose proof (Qle_Qabs (rank_of ranks p)) as Hu'.
    pose proof (Qle_Qabs (- rank_of ranks p)) as Hl'.
    rewrite Qabs_opp in Hl'.
    set (x := inflow corpus (rank_of ranks) p) in *.
    set (ax := Qabs x) in *.
    assert (damping * x <= damping * ax)%Q.
    { rewrite !(Qmult_comm damping). by apply Qmult_le_compat_r. }
    assert (damping * (- x) <= damping * ax)%Q.
    { rewrite !(Qmult_comm damping). by apply Qmult_le_compat_r. }
    assert (0 <= damping * ax)%Q by by apply Qmult_le_0_compat.
    apply Qabs_Qle_condition. split; lra.
  - rewrite sum_over_plus, sum_over_plus, sum_over_const, sum_over_scale, Hsum0.
    rewrite len_keys, Hchose.
    assert (damping * sum_over (keys corpus)
              (λ p, Qabs (inflow corpus (rank_of ranks) p)) <= damping * 1)%Q.
    { rewrite !(Qmult_comm damping). by apply Qmult_le_compat_r. }
    setoid_replace (len corpus * ((1 - damping) / len corpus))%Q
      with (1 - damping)%Q using relation Qeq by (field; lra).
    lra.
Qed.

(** A total change below 0.001 meets the convergence test. *)
Lemma close_enough_of_change (ranks ranks' : dict Q) :
  (change (keys ranks) ranks ranks' < 1 # 1000)%Q →
  close_enough ranks' ranks = true.
Proof.
  intros Hlt. unfold close_enough. apply forallb_forall. intros p Hp.
  apply list_elem_of_In in Hp. apply Qlt_bool_iff.
  eapply Qle_lt_trans; [|exact Hlt]. unfold change.
  apply (sum_over_term_le (keys ranks)
           (λ page, Qabs (rank_of ranks' page - rank_of ranks page))); [|done].
  intros q _. apply Qabs_nonneg.
Qed.

Lemma pass_bound_enough (damping : Q) :
  (0 <= damping < 1)%Q →
  (2000 <= of_nat (pass_bound damping) * (1 - damping))%Q.
Proof.
  intros [Hd0 Hd1]. unfold pass_bound.
  pose proof (Qle_ceiling (2000 / (1 - damping))) as Hc.
  assert (Hpos : (0 < 2000 / (1 - damping))%Q) by (apply Qlt_shift_div_l; lra).
  set (z := Qceiling (2000 / (1 - damping))) in *.
  assert (Hz : (0 ≤ z)%Z).
  { destruct (Z.le_gt_cases 0 z) as [|Hneg]; [done|].
    assert (inject_Z z <= 0)%Q by (unfold Qle; simpl; lia). lra. }
  unfold of_nat. rewrite Z2Nat.id by done.
  apply Qle_trans with (2000 / (1 - damping) * (1 - damping))%Q.
  - apply Qle_lteq. right. field. lra.
  - apply Qmult_le_compat_r; [done|lra].
Qed.

Lemma rank_of_uniform (corpus : graph) (q : Page) :
  q ∈ keys corpus → rank_of (uniform_ranks corpus) q = (1 / len corpus)%Q.
Proof. apply (rank_of_tabulate (λ _, (1 / len corpus)%Q)). Qed.

Lemma keys_uniform_ranks (corpus : graph) : keys (uniform_ranks corpus) = keys corpus.
Proof. apply keys_tabulate. Qed.

(** On a non-empty graph with a damping factor in [0,1), pass number
    [pass_bound damping] meets the convergence test. *)
Lemma close_enough_at_bound (corpus : graph) (damping : Q) :
  NoDup (keys corpus) →
  corpus ≠ [] →
  (0 <= damping < 1)%Q →
  let g := normalized corpus in
  let chose := ((1 - damping) / len g)%Q in
  close_enough
    (ranks_after g damping chose (S (pass_bound damping)) (uniform_ranks corpus))
    (ranks_after g damping chose (pass_bound damping) (uniform_ranks corpus)) = true.
Proof.
  intros ND Hne [Hd0 Hd1] g chose.
  assert (NDg : NoDup (keys g)) by (unfold g; by rewrite keys_normalized).
  set (k := pass_bound damping). set (r0 := uniform_ranks corpus).
  apply close_enough_of_change.
  rewrite keys_ranks_after
    by (unfold r0, g; by rewrite keys_uniform_ranks, keys_normalized).
  pose proof (change_decay g damping chose NDg Hd0 (Qlt_le_weak _ _ Hd1) r0 k) as Hdecay.
  pose proof (change_initial g damping chose r0 NDg) as Hinit.
  pose proof (change_nonneg (keys g) (ranks_after g damping chose k r0)
                (ranks_after g damping chose (S k) r0)) as Hnn.
  pose proof (pass_bound_enough damping (conj Hd0 Hd1)) as Hk. fold k in Hk.
  set (a := change (keys g) (ranks_after g damping chose k r0)
              (ranks_after g damping chose (S k) r0)) in *.
  assert (Hle2 : (change (keys g) r0 (next_ranks g damping chose r0) <= 2)%Q).
  { apply Hinit.
    - unfold g, normalized. intros E. apply fmap_nil_inv in E. done.
    - split; lra.
    - reflexivity.
    - intros q Hq. unfold r0, g in *. rewrite keys_normalized in Hq.
      rewrite rank_of_uniform by done. by rewrite len_normalized. }
  assert (a * 2001 <= a * (1 + of_nat k * (1 - damping)))%Q.
  { rewrite !(Qmult_comm a). apply Qmult_le_compat_r; lra. }
  lra.
Qed.

(** The locals at [break]: the loop stops within [pass_bound damping + 1]
    passes. *)
Lemma iterate_locals_stops (fuel : nat) (damping : Q) (w : world) :
  NoDup (keys (corpus_obj w)) →
  corpus_obj w ≠ [] →
  (0 <= damping < 1)%Q →
  (pass_bound damping < fuel)%nat →
  let g := normalized (corpus_obj w) in
  let chose := ((1 - damping) / len g)%Q in
  ∃ j, (j ≤ pass_bound damping)%nat ∧
    close_enough (ranks_after g damping chose (S j) (uniform_ranks (corpus_obj w)))
                 (ranks_after g damping chose j (uniform_ranks (corpus_obj w))) = true ∧
    iterate_locals fuel damping w
    = Ok ((ranks_after g damping chose j (uniform_ranks (corpus_obj w)),
           ranks_after g damping chose (S j) (uniform_ranks (corpus_obj w))),
          World g (rng w)).
Proof.
  intros ND Hne Hd Hfuel g chose.
  rewrite iterate_locals_run by done.
  apply (iterate_loop_stops damping chose (World g (rng w))).
  - simpl. unfold g. by rewrite keys_normalized.
  - simpl. unfold g. by rewrite keys_uniform_ranks, keys_normalized.
  - by apply close_enough_at_bound.
  - done.
Qed.

Lemma iterate_pagerank_inv (fuel : nat) (damping : Q) (w w' : world) (ranks : dict Q) :
  iterate_pagerank fuel damping w = Ok (ranks, w') ↔
  ∃ new_ranks, iterate_locals fuel damping w = Ok ((ranks, new_ranks), w').
Proof.
  unfold iterate_pagerank, mbind, M_bind.
  destruct (iterate_locals fuel damping w) as [[[pr nr] w1]| |]; simpl.
  - split.
    + intros [= <- <-]. by exists nr.
    + intros (nr' & [= <- <- <-]). done.
  - split; [done|]. by intros (? & ?).
  - split; [done|]. by intros (? & ?).
Qed.

(** ** The claims about the iterative estimator *)

(** C8, amended. With the ranks computed as exact rationals, on a non-empty
    graph, with or without cycles, and a damping factor in [0,1), the
    relaxation loop reaches within [pass_bound damping + 1] passes a pass in
    which every page changes by less than 0.001, and [iterate_pagerank]
    returns the ranks that pass started from.  (In binary64 the loop need
    not stop when the damping factor is within rounding of 1.) *)
Theorem iterate_pagerank_terminates (w : world) (damping : Q) (fuel : nat) :
  NoDup (keys (corpus_obj w)) →
  corpus_obj w ≠ [] →
  (0 <= damping < 1)%Q →
  (pass_bound damping < fuel)%nat →
  ∃ pagerank_dict new_ranks w',
    iterate_locals fuel damping w = Ok ((pagerank_dict, new_ranks), w') ∧
    new_ranks_pass (corpus_obj w') damping
      ((1 - damping) / len (corpus_obj w')) pagerank_dict = Ok new_ranks ∧
    all_close new_ranks pagerank_dict = Ok true ∧
    iterate_pagerank fuel damping w = Ok (pagerank_dict, w').
Proof.
  intros ND Hne Hd Hfuel.
  destruct (iterate_locals_stops fuel damping w ND Hne Hd Hfuel) as (j & _ & Hclose & Hrun).
  set (g := normalized (corpus_obj w)) in *.
  set (chose := ((1 - damping) / len g)%Q) in *.
  assert (Hkeys : keys (ranks_after g damping chose j (uniform_ranks (corpus_obj w)))
                  = keys g).
  { apply keys_ranks_after. unfold g. by rewrite keys_uniform_ranks, keys_normalized. }
  eexists _, _, _. split; [exact Hrun|]. simpl corpus_obj. split; [|split].
  - rewrite new_ranks_pass_eq; [done| |done].
    unfold g. by rewrite keys_normalized.
  - rewrite all_close_eq; [by rewrite Hclose|].
    change (ranks_after g damping chose (S j) (uniform_ranks (corpus_obj w)))
      with (next_ranks g damping chose
              (ranks_after g damping chose j (uniform_ranks (corpus_obj w)))).
    by rewrite keys_next_ranks, Hkeys.
  - apply iterate_pagerank_inv. eexists. exact Hrun.
Qed.

Lemma iterate_pagerank_terminates_witness :
  ∃ pagerank_dict new_ranks w',
    iterate_locals 4001 (1 # 2) (World sink_graph zero_rng)
    = Ok ((pagerank_dict, new_ranks), w') ∧
    new_ranks_pass (corpus_obj w') (1 # 2)
      ((1 - (1 # 2)) / len (corpus_obj w')) pagerank_dict = Ok new_ranks ∧
    all_close new_ranks pagerank_dict = Ok true ∧
    iterate_pagerank 4001 (1 # 2) (World sink_graph zero_rng)
    = Ok (pagerank_dict, w').
Proof.
  apply (iterate_pagerank_terminates (World sink_graph zero_rng) (1 # 2) 4001).
  - by_evaluation.
  - discriminate.
  - split; [discriminate | reflexivity].
  - apply Nat.ltb_lt. vm_compute. reflexivity.
Defined.

(** C1, as stated, fails: on the graph in which "B" links to the sink "A",
    with damping 0.85, the loop stops with [new_ranks] different from
    [pagerank_dict], and [pagerank_dict] is what is returned. *)
Lemma iterate_pagerank_returns_previous_ranks :
  ∃ pagerank_dict new_ranks w',
    iterate_locals 20 (85 # 100) (World sink_graph zero_rng)
    = Ok ((pagerank_dict, new_ranks), w') ∧
    all_close new_ranks pagerank_dict = Ok true ∧
    iterate_pagerank 20 (85 # 100) (World sink_graph zero_rng)
    = Ok (pagerank_dict, w') ∧
    ¬ (rank_of pagerank_dict "A" == rank_of new_ranks "A")%Q.
Proof.
  do 3 eexists.
  split; [vm_compute; reflexivity|].
  split; [vm_compute; reflexivity|].
  split; [vm_compute; reflexivity|].
  apply Qeq_bool_neq. vm_compute. reflexivity.
Qed.

(** C1, amended. Whenever [iterate_pagerank] returns, the mapping it
    returns is [pagerank_dict], the ranks the final pass started from;
    [new_ranks], the ranks that pass computed from them, is within 0.001 of
    it at every page and is dropped. *)
Theorem iterate_pagerank_returns_rank
    (w w' : world) (damping : Q) (fuel : nat) (ranks : dict Q) :
  NoDup (keys (corpus_obj w)) →
  iterate_pagerank fuel damping w = Ok (ranks, w') →
  ∃ new_ranks chose,
    iterate_locals fuel damping w = Ok ((ranks, new_ranks), w') ∧
    new_ranks_pass (corpus_obj w') damping chose ranks = Ok new_ranks ∧
    all_close new_ranks ranks = Ok true.
Proof.
  intros ND Hrun. apply iterate_pagerank_inv in Hrun as [new_ranks Hrun].
  exists new_ranks, ((1 - damping) / len (normalized (corpus_obj w)))%Q.
  split; [done|].
  destruct (decide (corpus_obj w = [])) as [Hempty|Hne].
  { by rewrite iterate_locals_empty in Hrun. }
  rewrite iterate_locals_run in Hrun by done.
  assert (NDg : NoDup (keys (normalized (corpus_obj w))))
    by by rewrite keys_normalized.
  apply iterate_loop_result in Hrun as (-> & (j & _ & Hj) & Hnew & Hclose);
    [|done|by simpl; rewrite keys_uniform_ranks, keys_normalized].
  simpl corpus_obj in *.
  assert (Hkeys : keys ranks = keys (normalized (corpus_obj w))).
  { rewrite Hj. apply keys_ranks_after. by rewrite keys_uniform_ranks, keys_normalized. }
  split.
  - rewrite new_ranks_pass_eq by done. by rewrite Hnew.
  - rewrite all_close_eq; [by rewrite Hclose|].
    by rewrite Hnew, keys_next_ranks.
Qed.

Lemma iterate_pagerank_returns_rank_witness :
  ∃ ranks w' new_ranks chose,
    iterate_pagerank 20 (85 # 100) (World two_cycle zero_rng) = Ok (ranks, w') ∧
    iterate_locals 20 (85 # 100) (World two_cycle zero_rng)
    = Ok ((ranks, new_ranks), w') ∧
    new_ranks_pass (corpus_obj w') (85 # 100) chose ranks = Ok new_ranks ∧
    all_close new_ranks ranks = Ok true.
Proof.
  assert (Hrun : ∃ ranks w',
    iterate_pagerank 20 (85 # 100) (World two_cycle zero_rng) = Ok (ranks, w')).
  { do 2 eexists. vm_compute. reflexivity. }
  destruct Hrun as (ranks & w' & Hrun). exists ranks, w'.
  destruct (iterate_pagerank_returns_rank (World two_cycle zero_rng) w'
              (85 # 100) 20 ranks) as (new_ranks & chose & H).
  - by_evaluation.
  - exact Hrun.
  - exists new_ranks, chose. by split.
Defined.

Lemma dict_get_normalized (corpus : graph) (page : Page) (links : gset Page) :
  dict_get corpus page = Some links →
  dict_get (normalized corpus) page
  = Some (if (size links =? 0)%nat then list_to_set (keys corpus) else links).
Proof.
  unfold normalized. generalize (list_to_set (keys corpus) : gset Page) as all.
  intros all. induction corpus as [|[q ls] corpus IH]; simpl; [done|].
  destruct (decide (q = page)) as [->|Hne]; [|exact IH].
  by intros [= ->].
Qed.

Lemma normalized_idem (corpus : graph) : normalized (normalized corpus) = normalized corpus.
Proof.
  unfold normalized at 1. rewrite keys_normalized. unfold normalized.
  rewrite <- list_fmap_compose.
  apply list_fmap_ext. intros i [page links] Hin. simpl.
  destruct (size links =? 0)%nat eqn:Hsz; simpl; [|by rewrite Hsz].
  destruct (size (list_to_set (keys corpus) : gset Page) =? 0)%nat eqn:Hall; [|done].
  exfalso. apply Nat.eqb_eq in Hall. apply size_empty_inv in Hall.
  apply list_elem_of_lookup_2 in Hin.
  assert (Hp : page ∈ (list_to_set (keys corpus) : gset Page)).
  { apply elem_of_list_to_set, list_elem_of_fmap. by exists (page, links). }
  rewrite Hall in Hp. by apply not_elem_of_empty in Hp.
Qed.

Lemma uniform_ranks_normalized (corpus : graph) :
  uniform_ranks (normalized corpus) = uniform_ranks corpus.
Proof. unfold uniform_ranks. by rewrite keys_normalized, len_normalized. Qed.

(** The loop does not look at the random generator. *)
Lemma iterate_loop_rng (fuel : nat) (damping chose : Q) (ranks : dict Q)
    (g : graph) (gen gen' : nat → N) (out : dict Q * dict Q) (w' : world) :
  NoDup (keys g) →
  keys ranks = keys g →
  iterate_loop fuel damping chose ranks (World g gen) = Ok (out, w') →
  w' = World g gen ∧
  iterate_loop fuel damping chose ranks (World g gen') = Ok (out, World g gen').
Proof.
  intros ND. revert ranks. induction fuel as [|fuel IH]; intros ranks Hkeys Hrun; [done|].
  rewrite iterate_loop_step in Hrun by done.
  rewrite iterate_loop_step by done. simpl corpus_obj in *.
  destruct (close_enough (next_ranks g damping chose ranks) ranks).
  - by injection Hrun as <- <-.
  - apply IH; [apply keys_next_ranks|done].
Qed.

(** Two runs of the loop on the same graph stop with the same locals,
    whatever the fuel and the generator. *)
Lemma iterate_loop_deterministic (fuel fuel' : nat) (damping chose : Q)
    (ranks : dict Q) (g : graph) (gen gen' : nat → N)
    (out out' : dict Q * dict Q) (w1 w2 : world) :
  NoDup (keys g) →
  keys ranks = keys g →
  iterate_loop fuel damping chose ranks (World g gen) = Ok (out, w1) →
  iterate_loop fuel' damping chose ranks (World g gen') = Ok (out', w2) →
  out = out' ∧ w1 = World g gen ∧ w2 = World g gen'.
Proof.
  intros ND Hkeys H1 H2.
  destruct (iterate_loop_rng _ _ _ _ _ _ gen _ _ ND Hkeys H1) as [-> _].
  destruct (iterate_loop_rng _ _ _ _ _ _ gen _ _ ND Hkeys H2) as [-> H2'].
  split; [|done].
  pose proof (iterate_loop_fuel damping chose (World g gen) ND fuel (fuel `max` fuel')
                ranks _ Hkeys H1 (Nat.le_max_l _ _)) as E1.
  pose proof (iterate_loop_fuel damping chose (World g gen) ND fuel' (fuel `max` fuel')
                ranks _ Hkeys H2' (Nat.le_max_r _ _)) as E2.
  rewrite E1 in E2. by injection E2.
Qed.

(** C2, as stated, fails: after the call the caller's graph gives the sink
    "A" the outbound set of all pages, where it had the empty set. *)
Lemma iterate_pagerank_rewrites_the_graph :
  ∃ ranks w',
    iterate_pagerank 20 (85 # 100) (World sink_graph zero_rng) = Ok (ranks, w') ∧
    dict_get sink_graph "A" = Some ∅ ∧
    dict_get (corpus_obj w') "A" = Some {["A"; "B"]}.
Proof.
  do 2 eexists. split; [vm_compute; reflexivity|]. split; [reflexivity|].
  vm_compute. reflexivity.
Qed.

(** C2, amended. When [iterate_pagerank] returns, the caller's graph has the
    pages it had, in the same order; a page that had links has the same
    outbound set as before the call, and a page that had none has the set of
    all pages of the graph. *)
Theorem iterate_pagerank_normalizes_the_graph
    (w w' : world) (damping : Q) (fuel : nat) (ranks : dict Q) :
  NoDup (keys (corpus_obj w)) →
  iterate_pagerank fuel damping w = Ok (ranks, w') →
  keys (corpus_obj w') = keys (corpus_obj w) ∧
  ∀ page links, dict_get (corpus_obj w) page = Some links →
    (size links ≠ 0%nat → dict_get (corpus_obj w') page = Some links) ∧
    (size links = 0%nat →
       dict_get (corpus_obj w') page = Some (list_to_set (keys (corpus_obj w)))).
Proof.
  intros ND Hrun. apply iterate_pagerank_inv in Hrun as [new_ranks Hrun].
  destruct (decide (corpus_obj w = [])) as [Hempty|Hne].
  { by rewrite iterate_locals_empty in Hrun. }
  rewrite iterate_locals_run in Hrun by done.
  apply iterate_loop_result in Hrun as (-> & _);
    [|by simpl; rewrite keys_normalized
     |by simpl; rewrite keys_uniform_ranks, keys_normalized].
  simpl. split; [apply keys_normalized|].
  intros page links Hget. rewrite (dict_get_normalized _ _ _ Hget).
  split.
  - intros Hsz. apply Nat.eqb_neq in Hsz. by rewrite Hsz.
  - intros ->. done.
Qed.

Lemma iterate_pagerank_normalizes_the_graph_witness :
  ∃ ranks w',
    iterate_pagerank 20 (85 # 100) (World sink_graph zero_rng) = Ok (ranks, w') ∧
    keys (corpus_obj w') = keys sink_graph ∧
    ∀ page links, dict_get sink_graph page = Some links →
      (size links ≠ 0%nat → dict_get (corpus_obj w') page = Some links) ∧
      (size links = 0%nat →
         dict_get (corpus_obj w') page = Some (list_to_set (keys sink_graph))).
Proof.
  assert (Hrun : ∃ ranks w',
    iterate_pagerank 20 (85 # 100) (World sink_graph zero_rng) = Ok (ranks, w')).
  { do 2 eexists. vm_compute. reflexivity. }
  destruct Hrun as (ranks & w' & Hrun). exists ranks, w'. split; [exact Hrun|].
  apply (iterate_pagerank_normalizes_the_graph (World sink_graph zero_rng) w'
           (85 # 100) 20 ranks).
  - by_evaluation.
  - exact Hrun.
Defined.

(** C9. Two calls of [iterate_pagerank] on the same graph with the same
    damping factor return the same rank mapping, whatever the state of the
    random generator, which neither call advances, and however long the
    loop is allowed to run; so does a further call on the graph object as
    the first call has left it. *)
Theorem iterate_pagerank_deterministic
    (w1 w2 w1' w2' : world) (damping : Q) (fuel1 fuel2 : nat)
    (ranks1 ranks2 : dict Q) :
  NoDup (keys (corpus_obj w1)) →
  corpus_obj w2 = corpus_obj w1 →
  iterate_pagerank fuel1 damping w1 = Ok (ranks1, w1') →
  iterate_pagerank fuel2 damping w2 = Ok (ranks2, w2') →
  ranks1 = ranks2 ∧ rng w1' = rng w1 ∧ rng w2' = rng w2 ∧
  ∀ fuel3 ranks3 w3,
    iterate_pagerank fuel3 damping w1' = Ok (ranks3, w3) → ranks3 = ranks1.
Proof.
  intros ND Hsame H1 H2.
  apply iterate_pagerank_inv in H1 as [nr1 H1].
  apply iterate_pagerank_inv in H2 as [nr2 H2].
  destruct (decide (corpus_obj w1 = [])) as [Hempty|Hne].
  { by rewrite iterate_locals_empty in H1. }
  rewrite iterate_locals_run in H1 by done.
  rewrite iterate_locals_run in H2 by (by rewrite Hsame).
  rewrite Hsame in H2.
  set (g := normalized (corpus_obj w1)) in *.
  assert (NDg : NoDup (keys g)) by (unfold g; by rewrite keys_normalized).
  assert (Hk0 : keys (uniform_ranks (corpus_obj w1)) = keys g)
    by (unfold g; by rewrite keys_uniform_ranks, keys_normalized).
  destruct (iterate_loop_deterministic _ _ _ _ _ _ _ _ _ _ _ _ NDg Hk0 H1 H2)
    as ([= <- <-] & -> & ->).
  repeat split; try done.
  intros fuel3 ranks3 w3 H3.
  apply iterate_pagerank_inv in H3 as [nr3 H3].
  rewrite iterate_locals_run in H3; simpl corpus_obj in *; [|done|].
  2:{ unfold g, normalized. intros E. by apply fmap_nil_inv in E. }
  fold g in H3. unfold g in H3 at 1 2 3.
  rewrite normalized_idem, uniform_ranks_normalized in H3. fold g in H3.
  simpl rng in H3.
  destruct (iterate_loop_deterministic _ _ _ _ _ _ _ _ _ _ _ _ NDg Hk0 H1 H3)
    as ([= <- <-] & _). done.
Qed.

Lemma iterate_pagerank_deterministic_witness :
  ∃ ranks1 ranks2 w1' w2',
    iterate_pagerank 20 (85 # 100) (World sink_graph zero_rng) = Ok (ranks1, w1') ∧
    iterate_pagerank 30 (85 # 100) (World sink_graph (λ i, N.of_nat i))
    = Ok (ranks2, w2') ∧
    ranks1 = ranks2 ∧ rng w1' = zero_rng ∧ rng w2' = (λ i, N.of_nat i) ∧
    ∀ fuel3 ranks3 w3,
      iterate_pagerank fuel3 (85 # 100) w1' = Ok (ranks3, w3) → ranks3 = ranks1.
Proof.
  assert (Hrun1 : ∃ ranks w',
    iterate_pagerank 20 (85 # 100) (World sink_graph zero_rng) = Ok (ranks, w')).
  { do 2 eexists. vm_compute. reflexivity. }
  assert (Hrun2 : ∃ ranks w',
    iterate_pagerank 30 (85 # 100) (World sink_graph (λ i, N.of_nat i))
    = Ok (ranks, w')).
  { do 2 eexists. vm_compute. reflexivity. }
  destruct Hrun1 as (ranks1 & w1' & Hrun1). destruct Hrun2 as (ranks2 & w2' & Hrun2).
  exists ranks1, ranks2, w1', w2'. split; [exact Hrun1|]. split; [exact Hrun2|].
  apply (iterate_pagerank_deterministic (World sink_graph zero_rng)
           (World sink_graph (λ i, N.of_nat i)) w1' w2' (85 # 100) 20 30 ranks1 ranks2).
  - by_evaluation.
  - reflexivity.
  - exact Hrun1.
  - exact Hrun2.
Defined.

(** C10. Each of the three operations returns a mapping over exactly the
    pages of the graph, in the order of the graph: [transition_model] for a
    page of the graph, [sample_pagerank] for [n >= 1] and any state of the
    random generator, [iterate_pagerank] whenever it returns. *)
Theorem results_have_the_pages_of_the_graph
    (w : world) (page : Page) (damping : Q) (n : Z) :
  link_graph (corpus_obj w) →
  page ∈ keys (corpus_obj w) →
  (0 <= damping <= 1)%Q →
  (1 ≤ n)%Z →
  (∃ tm, transition_model (corpus_obj w) page damping = Ok tm ∧
         keys tm = keys (corpus_obj w)) ∧
  (∃ ranks w', sample_pagerank damping n w = Ok (ranks, w') ∧
               keys ranks = keys (corpus_obj w)) ∧
  (∀ fuel ranks w', iterate_pagerank fuel damping w = Ok (ranks, w') →
                    keys ranks = keys (corpus_obj w)).
Proof.
  intros Hg Hpage [Hd0 Hd1] Hn. pose proof Hg as [ND _].
  assert (Hne : corpus_obj w ≠ []).
  { intros E. rewrite E in Hpage. by apply elem_of_nil in Hpage. }
  split; [|split].
  - destruct (dict_get_is_Some _ _ Hpage) as [links Hlinks].
    eexists. split; [by apply transition_model_eq|]. apply keys_tabulate.
  - destruct (sample_pagerank_run w damping n Hg Hne)
      as (counts & w' & Hkeys & _ & _ & _ & ->).
    rewrite sample_division_ok by lia. simpl.
    eexists _, _. split; [reflexivity|].
    rewrite <- Hkeys. unfold keys. by rewrite <- list_fmap_compose.
  - intros fuel ranks w' Hrun. apply iterate_pagerank_inv in Hrun as [nr Hrun].
    rewrite iterate_locals_run in Hrun by done.
    apply iterate_loop_result in Hrun as (_ & (j & _ & ->) & _);
      [|by simpl; rewrite keys_normalized
       |by simpl; rewrite keys_uniform_ranks, keys_normalized].
    simpl. rewrite keys_ranks_after; [apply keys_normalized|].
    by rewrite keys_uniform_ranks, keys_normalized.
Qed.

Lemma results_have_the_pages_of_the_graph_witness :
  (∃ tm, transition_model sink_graph "B" (1 # 2) = Ok tm ∧
         keys tm = keys sink_graph) ∧
  (∃ ranks w', sample_pagerank (1 # 2) 5 (World sink_graph zero_rng) = Ok (ranks, w') ∧
               keys ranks = keys sink_graph) ∧
  (∀ fuel ranks w',
     iterate_pagerank fuel (1 # 2) (World sink_graph zero_rng) = Ok (ranks, w') →
     keys ranks = keys sink_graph).
Proof.
  apply (results_have_the_pages_of_the_graph (World sink_graph zero_rng) "B" (1 # 2) 5).
  - by_evaluation.
  - by_evaluation.
  - split; discriminate.
  - lia.
Defined.

(** ** More about the transition model *)

(** X1. For a page that is not a key of the graph, in particular on the
    empty graph, [transition_model] raises [KeyError]. *)
Theorem transition_model_missing_page (corpus : graph) (page : Page) (damping : Q) :
  page ∉ keys corpus →
  transition_model corpus page damping = Raise KeyError.
Proof.
  intros Hpage. apply dict_get_None in Hpage.
  unfold transition_model, getitem. by rewrite Hpage.
Qed.

Lemma transition_model_missing_page_witness :
  transition_model sink_graph "C" (85 # 100) = Raise KeyError.
Proof.
  apply (transition_model_missing_page sink_graph "C" (85 # 100)). by_evaluation.
Defined.

Lemma spec_transition_prob_nonneg
    (corpus : graph) (links : gset Page) (damping : Q) (p : Page) :
  (0 <= damping <= 1)%Q → (0 <= spec_transition_prob corpus links damping p)%Q.
Proof.
  intros [Hd0 Hd1]. unfold spec_transition_prob.
  assert (H1 : (0 <= / len corpus)%Q) by apply Qinv_le_0_compat, of_nat_nonneg.
  assert (H2 : (0 <= / set_len links)%Q) by apply Qinv_le_0_compat, of_nat_nonneg.
  assert (H3 : (0 <= (1 - damping) / len corpus)%Q)
    by (apply Qmult_le_0_compat; [lra|done]).
  assert (H4 : (0 <= damping / set_len links)%Q) by by apply Qmult_le_0_compat.
  destruct (size links =? 0)%nat; [|destruct (bool_decide (p ∈ links))]; try lra.
  unfold Qdiv. lra.
Qed.

(** X2. For a page of a link graph and a damping factor in [0,1], every
    value of the mapping that [transition_model] returns lies between 0
    and 1. *)
Theorem transition_model_values_in_unit_interval
    (corpus : graph) (page : Page) (links : gset Page) (damping : Q) :
  link_graph corpus →
  dict_get corpus page = Some links →
  (0 <= damping <= 1)%Q →
  ∃ tm, transition_model corpus page damping = Ok tm ∧
        Forall (λ v, 0 <= v <= 1)%Q (values tm).
Proof.
  intros Hg Hget Hd. pose proof Hg as [ND _].
  eexists. split; [by apply transition_model_eq|].
  rewrite values_tabulate. apply Forall_fmap, Forall_forall. intros p Hp. simpl.
  split; [by apply spec_transition_prob_nonneg|].
  rewrite <- (spec_transition_prob_sum corpus page links damping Hg)
    by by apply dict_get_elem.
  apply (sum_over_term_le (keys corpus) (spec_transition_prob corpus links damping));
    [|done].
  intros q _. by apply spec_transition_prob_nonneg.
Qed.

Lemma transition_model_values_in_unit_interval_witness :
  ∃ tm, transition_model sink_graph "B" (85 # 100) = Ok tm ∧
        Forall (λ v, 0 <= v <= 1)%Q (values tm).
Proof.
  apply (transition_model_values_in_unit_interval sink_graph "B" {["A"]} (85 # 100)).
  - by_evaluation.
  - reflexivity.
  - split; discriminate.
Defined.

Lemma binary64_len_normalized (corpus : graph) :
  Binary64.len (normalized corpus) = Binary64.len corpus.
Proof. unfold Binary64.len, normalized. by rewrite length_fmap. Qed.

(** X3. The rewriting of the sinks that [iterate_pagerank] leaves in the
    graph does not change what [transition_model] returns for a page that
    has links: it returns the same mapping on the rewritten graph, over exact
    rationals and in binary64 alike.  For a sink it returns a mapping over
    the same pages whose probabilities are the same as exact rationals, where
    1/|graph| is (1-d)/|graph| + d/|graph|.  (In binary64 the two can differ
    in the last place.) *)
Theorem transition_model_after_normalization
    (corpus : graph) (page : Page) (links : gset Page) (damping : Q) (d64 : float) :
  NoDup (keys corpus) →
  dict_get corpus page = Some links →
  (size links ≠ 0%nat →
     transition_model (normalized corpus) page damping
     = transition_model corpus page damping ∧
     Binary64.transition_model (normalized corpus) page d64
     = Binary64.transition_model corpus page d64) ∧
  (size links = 0%nat →
     ∃ tm tm',
       transition_model corpus page damping = Ok tm ∧
       transition_model (normalized corpus) page damping = Ok tm' ∧
       keys tm' = keys tm ∧
       ∀ p, p ∈ keys corpus → (rank_of tm' p == rank_of tm p)%Q).
Proof.
  intros ND Hlinks.
  pose proof (dict_get_normalized corpus page links Hlinks) as Hlinks'.
  assert (Hpage : page ∈ keys corpus).
  { apply list_elem_of_fmap. exists (page, links). split; [done|].
    by apply dict_get_elem. }
  split.
  - intros Hsz. apply Nat.eqb_neq in Hsz. rewrite Hsz in Hlinks'.
    unfold transition_model, Binary64.transition_model, getitem.
    by rewrite Hlinks, Hlinks', keys_normalized, len_normalized,
      binary64_len_normalized.
  - intros Hsz. rewrite Hsz in Hlinks'. simpl in Hlinks'.
    assert (ND' : NoDup (keys (normalized corpus))) by by rewrite keys_normalized.
    eexists _, _.
    split; [by apply transition_model_eq|].
    split; [by apply transition_model_eq|].
    rewrite keys_normalized, !keys_tabulate. split; [done|].
    intros p Hp.
    rewrite (rank_of_tabulate (spec_transition_prob _ _ damping)) by done.
    rewrite (rank_of_tabulate (spec_transition_prob _ _ damping)) by done.
    unfold spec_transition_prob. rewrite len_normalized, Hsz. simpl.
    assert (Hall : size (list_to_set (keys corpus) : gset Page) = length corpus).
    { rewrite size_list_to_set by done. unfold keys. apply length_fmap. }
    assert (Hlen : ¬ (len corpus == 0)%Q) by by apply len_nonzero with page.
    assert (Hsz' : (size (list_to_set (keys corpus) : gset Page) =? 0)%nat = false).
    { apply Nat.eqb_neq. rewrite Hall. intros E. apply Hlen.
      unfold len. by rewrite E. }
    rewrite Hsz'. rewrite bool_decide_eq_true_2 by by apply elem_of_list_to_set.
    unfold set_len. rewrite Hall. fold (len corpus). by field.
Qed.

Lemma transition_model_after_normalization_witness :
  (size (∅ : gset Page) ≠ 0%nat →
     transition_model (normalized sink_graph) "A" (85 # 100)
     = transition_model sink_graph "A" (85 # 100) ∧
     Binary64.transition_model (normalized sink_graph) "A" 0x1.b333333333333p-1
     = Binary64.transition_model sink_graph "A" 0x1.b333333333333p-1) ∧
  (size (∅ : gset Page) = 0%nat →
     ∃ tm tm',
       transition_model sink_graph "A" (85 # 100) = Ok tm ∧
       transition_model (normalized sink_graph) "A" (85 # 100) = Ok tm' ∧
       keys tm' = keys tm ∧
       ∀ p, p ∈ keys sink_graph → (rank_of tm' p == rank_of tm p)%Q).
Proof.
  apply (transition_model_after_normalization sink_graph "A" ∅ (85 # 100)
           0x1.b333333333333p-1).
  - by_evaluation.
  - reflexivity.
Defined.

(** ** More about the sampling estimator *)



(** ** More about the iterative estimator *)

Lemma values_rank_of (ranks : dict Q) :
  NoDup (keys ranks) → values ranks = rank_of ranks <$> keys ranks.
Proof.
  intros ND. unfold values, keys. rewrite <- list_fmap_compose.
  apply list_fmap_ext. intros i [p v] Hin. simpl.
  apply list_elem_of_lookup_2 in Hin.
  unfold rank_of. by rewrite (dict_get_NoDup ranks p v).
Qed.

Lemma link_graph_normalized (corpus : graph) :
  link_graph corpus → link_graph (normalized corpus).
Proof.
  intros [ND Hall]. split; [by rewrite keys_normalized|].
  rewrite keys_normalized. unfold normalized. apply Forall_fmap.
  eapply Forall_impl; [exact Hall|]. intros [page links] Hsub. simpl in *.
  by destruct (size links =? 0)%nat.
Qed.

Lemma normalized_no_sink (corpus : graph) :
  Forall (λ item, size item.2 ≠ 0%nat) (normalized corpus).
Proof.
  unfold normalized. apply Forall_fmap, Forall_forall. intros [page links] Hin. simpl.
  destruct (size links =? 0)%nat eqn:Hsz; [|by apply Nat.eqb_neq].
  intros E. apply size_empty_inv in E.
  assert (Hp : page ∈ (list_to_set (keys corpus) : gset Page)).
  { apply elem_of_list_to_set, list_elem_of_fmap. by exists (page, links). }
  rewrite E in Hp. by apply not_elem_of_empty in Hp.
Qed.

(** In a link graph without sinks the links carry all the rank there is. *)
Lemma inflow_sum (corpus : graph) (ρ : Page → Q) :
  link_graph corpus →
  Forall (λ item, size item.2 ≠ 0%nat) corpus →
  (sum_over (keys corpus) (λ page, inflow corpus ρ page)
   == sum_over (keys corpus) ρ)%Q.
Proof.
  intros Hg Hns. pose proof Hg as [ND _]. unfold inflow.
  rewrite sum_over_swap. unfold keys at 2. rewrite sum_over_fmap.
  apply sum_over_ext. intros [q links] Hin. simpl.
  rewrite (sum_over_indicator (keys corpus) (.∈ links)).
  rewrite count_in_set_eq by eauto using link_graph_closed.
  rewrite Forall_forall in Hns. specialize (Hns _ Hin). simpl in Hns.
  fold (set_len links). field. unfold set_len. by rewrite of_nat_eq_0.
Qed.

Lemma inflow_nonneg (corpus : graph) (ρ : Page → Q) (page : Page) :
  (∀ q, q ∈ keys corpus → (0 <= ρ q)%Q) → (0 <= inflow corpus ρ page)%Q.
Proof.
  intros Hρ. apply sum_over_nonneg. intros [q links] Hin. simpl.
  destruct (bool_decide (page ∈ links)); [|done].
  apply Qmult_le_0_compat.
  - apply Hρ, list_elem_of_fmap. by exists (q, links).
  - apply Qinv_le_0_compat, of_nat_nonneg.
Qed.

Lemma next_ranks_distribution (corpus : graph) (damping chose : Q) (ranks : dict Q) :
  link_graph corpus →
  Forall (λ item, size item.2 ≠ 0%nat) corpus →
  (0 <= damping <= 1)%Q →
  (chose == (1 - damping) / len corpus)%Q →
  corpus ≠ [] →
  rank_distribution corpus chose ranks →
  rank_distribution corpus chose (next_ranks corpus damping chose ranks).
Proof.
  intros Hg Hns [Hd0 Hd1] Hchose Hne (Hkeys & Hsum & Hlow).
  assert (Hlen : (0 < len corpus)%Q).
  { apply of_nat_pos. destruct corpus; [done|simpl; lia]. }
  assert (Hc0 : (0 <= chose)%Q) by (rewrite Hchose; apply Qle_shift_div_l; lra).
  split; [apply keys_next_ranks|]. split.
  - rewrite (sum_over_ext _ _
      (λ p, chose + damping * inflow corpus (rank_of ranks) p)%Q)
      by (intros p Hp; by apply rank_of_next).
    rewrite sum_over_plus, sum_over_const, sum_over_scale, inflow_sum by done.
    rewrite Hsum, len_keys, Hchose. field. lra.
  - intros p Hp. rewrite rank_of_next by done.
    assert (0 <= inflow corpus (rank_of ranks) p)%Q.
    { apply inflow_nonneg. intros q Hq. specialize (Hlow q Hq). lra. }
    assert (0 <= damping * inflow corpus (rank_of ranks) p)%Q
      by by apply Qmult_le_0_compat.
    lra.
Qed.

Lemma uniform_ranks_distribution (corpus g : graph) (damping chose : Q) :
  keys g = keys corpus →
  len g = len corpus →
  corpus ≠ [] →
  (0 <= damping <= 1)%Q →
  (chose == (1 - damping) / len g)%Q →
  rank_distribution g chose (uniform_ranks corpus).
Proof.
  intros Hkeys Hlen Hne [Hd0 Hd1] Hchose.
  assert (Hpos : (0 < len corpus)%Q).
  { apply of_nat_pos. destruct corpus; [done|simpl; lia]. }
  split; [by rewrite keys_uniform_ranks|]. rewrite Hkeys. split.
  - rewrite (sum_over_ext _ _ (λ _, 1 / len corpus)%Q)
      by (intros p Hp; by rewrite rank_of_uniform).
    rewrite sum_over_const, len_keys. field. lra.
  - intros p Hp. rewrite rank_of_uniform, Hchose, Hlen by done.
    unfold Qdiv. apply Qmult_le_compat_r; [lra|].
    apply Qinv_le_0_compat. lra.
Qed.

(** X5. On a non-empty link graph with a damping factor in [0,1], whenever
    [iterate_pagerank] returns, the values it returns add up to 1 and each
    of them lies between (1 - damping)/|graph| and 1. *)
Theorem iterate_pagerank_distribution
    (w w' : world) (damping : Q) (fuel : nat) (ranks : dict Q) :
  link_graph (corpus_obj w) →
  (0 <= damping <= 1)%Q →
  iterate_pagerank fuel damping w = Ok (ranks, w') →
  (py_sum (values ranks) == 1)%Q ∧
  Forall (λ v, (1 - damping) / len (corpus_obj w) <= v <= 1)%Q (values ranks).
Proof.
  intros Hg Hd Hrun. pose proof Hg as [ND _].
  apply iterate_pagerank_inv in Hrun as [nr Hrun].
  destruct (decide (corpus_obj w = [])) as [Hempty|Hne].
  { by rewrite iterate_locals_empty in Hrun. }
  rewrite iterate_locals_run in Hrun by done.
  set (g := normalized (corpus_obj w)) in *.
  set (chose := ((1 - damping) / len g)%Q) in *.
  assert (Hkg : keys g = keys (corpus_obj w)) by apply keys_normalized.
  assert (Hlg : len g = len (corpus_obj w)) by apply len_normalized.
  apply iterate_loop_result in Hrun as (_ & (j & _ & ->) & _);
    [|by simpl; rewrite Hkg|by simpl; rewrite keys_uniform_ranks, Hkg].
  simpl corpus_obj.
  assert (Hinv : rank_distribution g chose
                   (ranks_after g damping chose j (uniform_ranks (corpus_obj w)))).
  { induction j as [|j IH].
    - by apply (uniform_ranks_distribution _ _ damping).
    - apply next_ranks_distribution; try done.
      + by apply link_graph_normalized.
      + apply normalized_no_sink.
      + unfold g, normalized. intros E. by apply fmap_nil_inv in E. }
  destruct Hinv as (Hkeys & Hsum & Hlow).
  set (r := ranks_after g damping chose j (uniform_ranks (corpus_obj w))) in *.
  assert (NDr : NoDup (keys r)) by by rewrite Hkeys, Hkg.
  rewrite values_rank_of by done. rewrite Hkeys.
  split; [exact Hsum|].
  apply Forall_fmap, Forall_forall. intros p Hp. simpl.
  split; [rewrite <- Hlg; by apply Hlow|].
  rewrite <- Hsum. apply (sum_over_term_le (keys g) (rank_of r)); [|done].
  intros q Hq. specialize (Hlow q Hq).
  assert (0 <= chose)%Q; [|lra].
  unfold chose. apply Qmult_le_0_compat; [lra|].
  apply Qinv_le_0_compat, of_nat_nonneg.
Qed.

Lemma iterate_pagerank_distribution_witness :
  ∃ ranks w',
    iterate_pagerank 20 (85 # 100) (World sink_graph zero_rng) = Ok (ranks, w') ∧
    (py_sum (values ranks) == 1)%Q ∧
    Forall (λ v, (1 - (85 # 100)) / len sink_graph <= v <= 1)%Q (values ranks).
Proof.
  assert (Hrun : ∃ ranks w',
    iterate_pagerank 20 (85 # 100) (World sink_graph zero_rng) = Ok (ranks, w')).
  { do 2 eexists. vm_compute. reflexivity. }
  destruct Hrun as (ranks & w' & Hrun). exists ranks, w'. split; [exact Hrun|].
  apply (iterate_pagerank_distribution (World sink_graph zero_rng) w' (85 # 100) 20 ranks).
  - by_evaluation.
  - split; discriminate.
  - exact Hrun.
Defined.

Lemma inflow_const (corpus : graph) (ρ : Page → Q) (a : Q) (page : Page) :
  (∀ q, q ∈ keys corpus → (ρ q == a)%Q) →
  (inflow corpus ρ page == a * inflow corpus (λ _, 1) page)%Q.
Proof.
  intros Hρ. unfold inflow. rewrite <- sum_over_scale.
  apply sum_over_ext. intros [q links] Hin. simpl.
  destruct (bool_decide (page ∈ links)); [|ring].
  rewrite Hρ by (apply list_elem_of_fmap; by exists (q, links)).
  unfold Qdiv. ring.
Qed.

(** When the update maps the uniform ranks to themselves, the first pass
    meets the convergence test and the uniform ranks are returned. *)
Lemma iterate_pagerank_balanced (w : world) (damping : Q) (fuel : nat) :
  NoDup (keys (corpus_obj w)) →
  corpus_obj w ≠ [] →
  (∀ p, p ∈ keys (corpus_obj w) →
        (damping * inflow (normalized (corpus_obj w)) (λ _, 1) p == damping)%Q) →
  iterate_pagerank (S fuel) damping w
  = Ok (uniform_ranks (corpus_obj w), World (normalized (corpus_obj w)) (rng w)).
Proof.
  intros ND Hne Hbal. apply iterate_pagerank_inv. eexists.
  rewrite iterate_locals_run by done.
  set (g := normalized (corpus_obj w)). set (r0 := uniform_ranks (corpus_obj w)).
  set (chose := ((1 - damping) / len g)%Q).
  assert (Hkg : keys g = keys (corpus_obj w)) by apply keys_normalized.
  assert (Hpos : (0 < len (corpus_obj w))%Q).
  { apply of_nat_pos. destruct (corpus_obj w); [done|simpl; lia]. }
  rewrite iterate_loop_step;
    [|by simpl; rewrite Hkg|by simpl; unfold r0; rewrite keys_uniform_ranks, Hkg].
  simpl corpus_obj. fold g.
  rewrite close_enough_of_change; [reflexivity|].
  unfold change, r0. rewrite keys_uniform_ranks.
  rewrite (sum_over_ext _ _ (λ _, 0%Q)).
  { rewrite sum_over_const. lra. }
  intros p Hp. rewrite <- Hkg in Hp. rewrite rank_of_next by done.
  rewrite Hkg in Hp. rewrite rank_of_uniform by done.
  rewrite (inflow_const g _ (1 / len (corpus_obj w))%Q)
    by (intros q Hq; rewrite Hkg in Hq; by rewrite rank_of_uniform).
  pose proof (Hbal p Hp) as Hb. fold g in Hb.
  unfold chose, g. rewrite len_normalized. fold g.
  setoid_replace ((1 - damping) / len (corpus_obj w)
                  + damping * (1 / len (corpus_obj w) * inflow g (λ _, 1) p)
                  - 1 / len (corpus_obj w))%Q
    with ((damping * inflow g (λ _, 1) p - damping) / len (corpus_obj w))%Q
    using relation Qeq by (field; lra).
  rewrite Hb.
  setoid_replace ((damping - damping) / len (corpus_obj w))%Q with 0%Q
    using relation Qeq by (field; lra).
  reflexivity.
Qed.

Lemma inflow_link_free (corpus : graph) (page : Page) :
  NoDup (keys corpus) →
  Forall (λ item, size item.2 = 0%nat) corpus →
  page ∈ keys corpus →
  (inflow (normalized corpus) (λ _, 1) page == 1)%Q.
Proof.
  intros ND Hsinks Hpage.
  assert (Hlen : ¬ (len corpus == 0)%Q) by by apply len_nonzero with page.
  unfold inflow, normalized. rewrite sum_over_fmap.
  rewrite (sum_over_ext _ _ (λ _, 1 / len corpus)%Q).
  { rewrite sum_over_const. by field. }
  intros [q links] Hin. simpl.
  rewrite Forall_forall in Hsinks. specialize (Hsinks _ Hin). simpl in Hsinks.
  rewrite Hsinks. simpl.
  rewrite bool_decide_eq_true_2 by by apply elem_of_list_to_set.
  unfold set_len. rewrite size_list_to_set by done.
  unfold keys. rewrite length_fmap. reflexivity.
Qed.

(** X6. On a non-empty graph in which no page has links, and for a damping
    factor in [0,1], [iterate_pagerank] stops after its first pass and
    returns the rank 1/|graph| for every page; a graph with a single page
    without links so gets the rank 1. *)
Theorem iterate_pagerank_link_free (w : world) (damping : Q) (fuel : nat) :
  NoDup (keys (corpus_obj w)) →
  corpus_obj w ≠ [] →
  Forall (λ item, size item.2 = 0%nat) (corpus_obj w) →
  (0 <= damping <= 1)%Q →
  iterate_pagerank (S fuel) damping w
  = Ok ((λ page, (page, 1 / len (corpus_obj w))%Q) <$> keys (corpus_obj w),
        World (normalized (corpus_obj w)) (rng w)).
Proof.
  intros ND Hne Hsinks _. apply iterate_pagerank_balanced; [done|done|].
  intros p Hp. rewrite inflow_link_free by done. ring.
Qed.

Lemma iterate_pagerank_link_free_witness :
  iterate_pagerank 1 (85 # 100) (World [("A", ∅)] zero_rng)
  = Ok ((λ page, (page, 1 / len [("A", ∅ : gset Page)])%Q) <$> keys [("A", ∅ : gset Page)],
        World (normalized [("A", ∅)]) zero_rng).
Proof.
  apply (iterate_pagerank_link_free (World [("A", ∅)] zero_rng) (85 # 100) 0).
  - by_evaluation.
  - discriminate.
  - by_evaluation.
  - split; discriminate.
Defined.

(** X7. When every page receives, over the pages that link to it, shares
    1/|outbound| that add up to 1 (as in a cycle, where every page has one
    link and is linked once), the uniform ranks are a fixed point: for a
    damping factor in [0,1], [iterate_pagerank] stops after its first pass
    and returns 1/|graph| for every page. *)
Theorem iterate_pagerank_uniform_fixed_point (w : world) (damping : Q) (fuel : nat) :
  NoDup (keys (corpus_obj w)) →
  corpus_obj w ≠ [] →
  (∀ p, p ∈ keys (corpus_obj w) →
        (sum_over (normalized (corpus_obj w))
           (λ item, if bool_decide (p ∈ item.2) then 1 / set_len item.2 else 0)
         == 1)%Q) →
  (0 <= damping <= 1)%Q →
  iterate_pagerank (S fuel) damping w
  = Ok ((λ page, (page, 1 / len (corpus_obj w))%Q) <$> keys (corpus_obj w),
        World (normalized (corpus_obj w)) (rng w)).
Proof.
  intros ND Hne Hbal _. apply iterate_pagerank_balanced; [done|done|].
  intros p Hp. unfold inflow. rewrite (Hbal p Hp). ring.
Qed.

Lemma iterate_pagerank_uniform_fixed_point_witness :
  iterate_pagerank 1 (85 # 100) (World two_cycle zero_rng)
  = Ok ((λ page, (page, 1 / len two_cycle)%Q) <$> keys two_cycle,
        World (normalized two_cycle) zero_rng).
Proof.
  apply (iterate_pagerank_uniform_fixed_point (World two_cycle zero_rng) (85 # 100) 0).
  - by_evaluation.
  - discriminate.
  - intros p Hp. simpl in Hp.
    apply elem_of_cons in Hp as [->|Hp]; [by vm_compute|].
    apply elem_of_cons in Hp as [->|Hp]; [by vm_compute|].
    by apply elem_of_nil in Hp.
  - split; discriminate.
Defined.

(** X14. With a damping factor of 0 every rank is the random-jump term:
    on every non-empty graph [iterate_pagerank] stops after its first pass
    and returns 1/|graph| for every page. *)
Theorem iterate_pagerank_zero_damping (w : world) (damping : Q) (fuel : nat) :
  NoDup (keys (corpus_obj w)) →
  corpus_obj w ≠ [] →
  (damping == 0)%Q →
  iterate_pagerank (S fuel) damping w
  = Ok ((λ page, (page, 1 / len (corpus_obj w))%Q) <$> keys (corpus_obj w),
        World (normalized (corpus_obj w)) (rng w)).
Proof.
  intros ND Hne Hzero. apply iterate_pagerank_balanced; [done|done|].
  intros p Hp. rewrite Hzero. ring.
Qed.

Lemma iterate_pagerank_zero_damping_witness :
  iterate_pagerank 1 0 (World sink_graph zero_rng)
  = Ok ((λ page, (page, 1 / len sink_graph)%Q) <$> keys sink_graph,
        World (normalized sink_graph) zero_rng).
Proof.
  apply (iterate_pagerank_zero_damping (World sink_graph zero_rng) 0 0).
  - by_evaluation.
  - discriminate.
  - reflexivity.
Defined.

(** X8. When [iterate_pagerank] returns on a link graph, the graph it
    leaves to the caller is again a link graph, has no page without links,
    and is not changed by rewriting the sinks once more. *)
Theorem iterate_pagerank_leaves_link_graph
    (w w' : world) (damping : Q) (fuel : nat) (ranks : dict Q) :
  link_graph (corpus_obj w) →
  iterate_pagerank fuel damping w = Ok (ranks, w') →
  link_graph (corpus_obj w') ∧
  Forall (λ item, size item.2 ≠ 0%nat) (corpus_obj w') ∧
  normalized (corpus_obj w') = corpus_obj w'.
Proof.
  intros Hg Hrun. pose proof Hg as [ND _].
  apply iterate_pagerank_inv in Hrun as [nr Hrun].
  destruct (decide (corpus_obj w = [])) as [Hempty|Hne].
  { by rewrite iterate_locals_empty in Hrun. }
  rewrite iterate_locals_run in Hrun by done.
  apply iterate_loop_result in Hrun as (-> & _);
    [|by simpl; rewrite keys_normalized
     |by simpl; rewrite keys_uniform_ranks, keys_normalized].
  simpl. split; [by apply link_graph_normalized|].
  split; [apply normalized_no_sink|apply normalized_idem].
Qed.

Lemma iterate_pagerank_leaves_link_graph_witness :
  ∃ ranks w',
    iterate_pagerank 20 (85 # 100) (World sink_graph zero_rng) = Ok (ranks, w') ∧
    link_graph (corpus_obj w') ∧
    Forall (λ item, size item.2 ≠ 0%nat) (corpus_obj w') ∧
    normalized (corpus_obj w') = corpus_obj w'.
Proof.
  assert (Hrun : ∃ ranks w',
    iterate_pagerank 20 (85 # 100) (World sink_graph zero_rng) = Ok (ranks, w')).
  { do 2 eexists. vm_compute. reflexivity. }
  destruct Hrun as (ranks & w' & Hrun). exists ranks, w'. split; [exact Hrun|].
  apply (iterate_pagerank_leaves_link_graph (World sink_graph zero_rng) w'
           (85 # 100) 20 ranks).
  - by_evaluation.
  - exact Hrun.
Defined.

(** ** The crawler *)

Section dict_update.
Context {V : Type}.
Implicit Types (d : dict V) (k : Page) (v : V).

Lemma dict_get_set_eq d k v : dict_get (dict_set d k v) k = Some v.
Proof.
  induction d as [|[k' v'] d IH]; simpl.
  - by rewrite decide_True.
  - destruct (decide (k' = k)) as [->|Hne]; simpl.
    + by rewrite decide_True.
    + by rewrite decide_False.
Qed.

Lemma dict_get_set_ne d k k' v : k ≠ k' → dict_get (dict_set d k v) k' = dict_get d k'.
Proof.
  intros Hne. induction d as [|[k0 v0] d IH]; simpl.
  - by rewrite decide_False.
  - destruct (decide (k0 = k)) as [->|Hne0]; simpl.
    + by rewrite !decide_False.
    + destruct (decide (k0 = k')); done.
Qed.

Lemma elem_of_keys_dict_set d k k' v :
  k' ∈ keys (dict_set d k v) ↔ k' = k ∨ k' ∈ keys d.
Proof.
  destruct (decide (k ∈ keys d)) as [Hin|Hout].
  - rewrite keys_dict_set_present by done. split; [auto|]. by intros [->|].
  - rewrite dict_set_fresh by done. unfold keys. rewrite fmap_app, elem_of_app.
    simpl. rewrite list_elem_of_singleton. tauto.
Qed.

Lemma NoDup_keys_dict_set d k v : NoDup (keys d) → NoDup (keys (dict_set d k v)).
Proof.
  intros ND. destruct (decide (k ∈ keys d)) as [Hin|Hout].
  - by rewrite keys_dict_set_present.
  - rewrite dict_set_fresh by done. unfold keys in *. rewrite fmap_app. simpl.
    apply NoDup_app. split; [done|]. split; [|apply NoDup_singleton].
    intros x Hx Hx'. apply list_elem_of_singleton in Hx'. by subst.
Qed.

Lemma Forall_dict_set (P : Page * V → Prop) d k v :
  P (k, v) → Forall P d → Forall P (dict_set d k v).
Proof.
  intros HP. induction d as [|[k' v'] d IH]; simpl; intros Hall.
  - by constructor.
  - apply Forall_cons in Hall as [H1 H2].
    destruct (decide (k' = k)) as [->|]; constructor; auto.
Qed.

Lemma dict_get_middle (d1 d2 : dict V) k v :
  k ∉ keys d1 → dict_get (d1 ++ (k, v) :: d2) k = Some v.
Proof.
  unfold keys. induction d1 as [|[k' v'] d1 IH]; simpl; intros Hk.
  - by rewrite decide_True.
  - apply not_elem_of_cons in Hk as [Hne Hk]. rewrite decide_False by done. auto.
Qed.
End dict_update.

Section crawler_facts.
Variable findall : string → list string.

(** What the first loop does with one entry of the directory. *)
Let add_entry (pages : graph) (entry : string * string) : graph :=
  let '(filename, contents) := entry in
  if negb (endswith filename ".html") then pages
  else dict_set pages filename (list_to_set (findall contents) ∖ {[filename]}).

Lemma extract_links_from (directory : list (string * string)) (acc : graph) :
  NoDup (keys acc) →
  Forall (λ item, item.1 ∉ item.2) acc →
  let pages := fold_left add_entry directory acc in
  NoDup (keys pages) ∧
  Forall (λ item, item.1 ∉ item.2) pages ∧
  ∀ k, k ∈ keys pages ↔
       k ∈ keys acc ∨
       ∃ contents, (k, contents) ∈ directory ∧ endswith k ".html" = true.
Proof.
  revert acc. induction directory as [|[filename contents] directory IH];
    intros acc ND Hself; cbv zeta; cbn [fold_left].
  - split; [done|]. split; [done|]. intros k. split; [auto|].
    intros [?|(c & Hin & _)]; [done|]. by apply elem_of_nil in Hin.
  - destruct (IH (add_entry acc (filename, contents))) as (ND' & Hself' & Hkeys').
    + simpl. destruct (endswith filename ".html"); simpl; [|done].
      by apply NoDup_keys_dict_set.
    + simpl. destruct (endswith filename ".html"); simpl; [|done].
      apply Forall_dict_set; [|done]. simpl.
      rewrite elem_of_difference, elem_of_singleton. by intros [_ ?].
    + split; [done|]. split; [done|]. intros k. rewrite Hkeys'.
      unfold add_entry at 1.
      destruct (endswith filename ".html") eqn:Hhtml; simpl.
      * rewrite elem_of_keys_dict_set. split.
        -- intros [[->|?]|(c & Hin & Hk)]; [right|by left|right].
           ++ exists contents. split; [left|done].
           ++ exists c. split; [by right|done].
        -- intros [?|(c & Hin & Hk)]; [by left; right|].
           apply elem_of_cons in Hin as [[= -> ->]|Hin]; [by left; left|].
           right. by exists c.
      * split.
        -- intros [?|(c & Hin & Hk)]; [by left|]. right. exists c. split; [by right|done].
        -- intros [?|(c & Hin & Hk)]; [by left|].
           apply elem_of_cons in Hin as [[= -> ->]|Hin]; [congruence|].
           right. by exists c.
Qed.

(** The links stored for a file whose name occurs once in the directory. *)
Lemma extract_links_get (directory : list (string * string)) (acc : graph)
    (filename contents : string) :
  NoDup directory.*1 →
  (filename, contents) ∈ directory →
  endswith filename ".html" = true →
  dict_get (fold_left add_entry directory acc) filename
  = Some (list_to_set (findall contents) ∖ {[filename]}).
Proof.
  revert acc. induction directory as [|[name text] directory IH];
    intros acc ND Hin Hhtml; [by apply elem_of_nil in Hin|].
  simpl in ND. apply NoDup_cons in ND as [Hname ND].
  apply elem_of_cons in Hin as [[= <- <-]|Hin].
  - simpl. rewrite Hhtml. simpl.
    assert (Hkeep : ∀ rest acc', (filename ∉ rest.*1) →
              dict_get (fold_left add_entry rest acc') filename
              = dict_get acc' filename).
    { clear. induction rest as [|[n t] rest IH]; intros acc' Hn; [done|].
      simpl in Hn. apply not_elem_of_cons in Hn as [Hne Hn].
      simpl. rewrite IH by done.
      destruct (endswith n ".html"); simpl; [|done].
      by rewrite dict_get_set_ne. }
    rewrite Hkeep by done. apply dict_get_set_eq.
  - simpl. by apply IH.
Qed.

(** The second loop filters every outbound set, and cannot fail. *)
Lemma keep_corpus_links_eq (pages : graph) :
  NoDup (keys pages) →
  keep_corpus_links pages
  = Ok ((λ item, (item.1, filter (λ link, link ∈ keys pages) item.2)) <$> pages).
Proof.
  intros ND. unfold keep_corpus_links.
  set (keep := λ item : Page * gset Page,
         (item.1, filter (λ link, link ∈ keys pages) item.2)).
  assert (Hgen : ∀ done todo, pages = done ++ todo →
    for_in (keys todo) (λ pages filename,
        links ← getitem pages filename;
        mret (dict_set pages filename
                (filter (λ link, link ∈ keys pages) links)))
      ((keep <$> done) ++ todo)
    = Ok (keep <$> pages)).
  { intros done todo. revert done.
    induction todo as [|[page links] todo IH]; intros done Hsplit.
    - rewrite app_nil_r in *. by subst.
    - assert (Hpage : page ∉ keys (keep <$> done)).
      { rewrite Hsplit in ND. unfold keys in *. rewrite fmap_app in ND.
        apply NoDup_app in ND as (_ & Hdisj & _).
        rewrite <- list_fmap_compose. intros Hin. apply (Hdisj page Hin). left. }
      assert (Hkeys : keys ((keep <$> done) ++ (page, links) :: todo) = keys pages).
      { unfold keys. rewrite fmap_app, <- list_fmap_compose, Hsplit, fmap_app.
        f_equal. }
      specialize (IH (done ++ [(page, links)])).
      rewrite fmap_app, <- !app_assoc in IH. simpl in IH.
      specialize (IH Hsplit).
      simpl. unfold getitem. rewrite dict_get_middle by done. simpl.
      rewrite dict_set_middle by done. rewrite Hkeys. exact IH. }
  exact (Hgen [] pages eq_refl).
Qed.
End crawler_facts.

Lemma crawl_eq (findall : string → list string) (directory : list (string * string)) :
  let pages := extract_links findall directory in
  NoDup (keys pages) ∧
  Forall (λ item, item.1 ∉ item.2) pages ∧
  (∀ k, k ∈ keys pages ↔
        ∃ contents, (k, contents) ∈ directory ∧ endswith k ".html" = true) ∧
  crawl findall directory
  = Ok ((λ item, (item.1, filter (λ link, link ∈ keys pages) item.2)) <$> pages).
Proof.
  destruct (extract_links_from findall directory []) as (ND & Hself & Hkeys);
    [apply NoDup_nil_2|constructor|].
  cbv zeta. split; [exact ND|]. split; [exact Hself|]. split.
  - intros k. etrans; [apply Hkeys|]. split; [|auto].
    intros [Hk|?]; [|done]. by apply elem_of_nil in Hk.
  - unfold crawl. by apply keep_corpus_links_eq.
Qed.

Lemma keys_filtered (pages : graph) (f : Page * gset Page → gset Page) :
  keys ((λ item, (item.1, f item)) <$> pages) = keys pages.
Proof. unfold keys. by rewrite <- list_fmap_compose. Qed.

(** X9. Whatever the directory holds and whatever links the files show,
    [crawl] returns a link graph: its pages are pairwise different, every
    link goes to a page of the graph, and no page links to itself. *)
Theorem crawl_link_graph
    (findall : string → list string) (directory : list (string * string)) :
  ∃ corpus, crawl findall directory = Ok corpus ∧
    link_graph corpus ∧
    Forall (λ item, item.1 ∉ item.2) corpus.
Proof.
  destruct (crawl_eq findall directory) as (ND & Hself & _ & Hrun).
  eexists. split; [exact Hrun|].
  set (pages := extract_links findall directory) in *.
  split; [split|].
  - by rewrite keys_filtered.
  - rewrite keys_filtered. apply Forall_fmap, Forall_forall. intros [page links] _.
    simpl. intros link Hlink. apply elem_of_filter in Hlink as [Hlink _].
    by apply elem_of_list_to_set.
  - apply Forall_fmap. eapply Forall_impl; [exact Hself|].
    intros [page links] Hp. simpl in *. rewrite elem_of_filter. tauto.
Qed.

(** X10. The pages of the graph that [crawl] returns are the entries of
    the directory whose names end in [.html], and no others. *)
Theorem crawl_pages
    (findall : string → list string) (directory : list (string * string)) :
  ∃ corpus, crawl findall directory = Ok corpus ∧
    ∀ page, page ∈ keys corpus ↔
            ∃ contents, (page, contents) ∈ directory ∧ endswith page ".html" = true.
Proof.
  destruct (crawl_eq findall directory) as (_ & _ & Hkeys & Hrun).
  eexists. split; [exact Hrun|]. intros page. by rewrite keys_filtered.
Qed.

(** X11. In a directory whose entries have pairwise different names, the
    outbound set that [crawl] gives to an HTML file holds exactly the links
    found in the file that are pages of the graph and are not the file
    itself. *)
Theorem crawl_links
    (findall : string → list string) (directory : list (string * string))
    (filename contents : string) :
  NoDup directory.*1 →
  (filename, contents) ∈ directory →
  endswith filename ".html" = true →
  ∃ corpus links,
    crawl findall directory = Ok corpus ∧
    dict_get corpus filename = Some links ∧
    ∀ link, link ∈ links ↔
            link ∈ findall contents ∧ link ≠ filename ∧ link ∈ keys corpus.
Proof.
  intros NDdir Hin Hhtml.
  destruct (crawl_eq findall directory) as (ND & _ & _ & Hrun).
  pose proof (extract_links_get findall directory [] filename contents NDdir Hin Hhtml)
    as Hget.
  set (pages := extract_links findall directory) in *.
  eexists _, _. split; [exact Hrun|]. split.
  - apply dict_get_NoDup; [by rewrite keys_filtered|].
    apply list_elem_of_fmap.
    exists (filename, list_to_set (findall contents) ∖ {[filename]}).
    split; [reflexivity|]. by apply dict_get_elem.
  - intros link. simpl. rewrite keys_filtered, elem_of_filter, elem_of_difference.
    rewrite elem_of_list_to_set, elem_of_singleton. tauto.
Qed.

Lemma crawl_links_witness :
  ∃ corpus links,
    crawl (λ contents, [contents]) [("1.html", "2.html"); ("2.html", "1.html")]
    = Ok corpus ∧
    dict_get corpus "1.html" = Some links ∧
    ∀ link, link ∈ links ↔
            link ∈ [ "2.html" ] ∧ link ≠ "1.html" ∧ link ∈ keys corpus.
Proof.
  apply (crawl_links (λ contents, [contents])
           [("1.html", "2.html"); ("2.html", "1.html")] "1.html" "2.html").
  - by_evaluation.
  - by_evaluation.
  - reflexivity.
Defined.

(** What [crawl] returns: a link graph over the HTML files of the directory. *)
Lemma crawl_link_graph_run
    (findall : string → list string) (directory : list (string * string)) :
  ∃ corpus, crawl findall directory = Ok corpus ∧
    link_graph corpus ∧
    ∀ page, page ∈ keys corpus ↔
            ∃ contents, (page, contents) ∈ directory ∧ endswith page ".html" = true.
Proof.
  destruct (crawl_eq findall directory) as (ND & _ & Hkeys & Hrun).
  eexists. split; [exact Hrun|].
  set (pages := extract_links findall directory) in *.
  split; [split|].
  - by rewrite keys_filtered.
  - rewrite keys_filtered. apply Forall_fmap, Forall_forall. intros [page links] _.
    simpl. intros link Hlink. apply elem_of_filter in Hlink as [Hlink _].
    by apply elem_of_list_to_set.
  - intros page. by rewrite keys_filtered.
Qed.

(** ** The command line *)

Lemma sorted_keys (ranks : dict Q) (page : Page) :
  page ∈ sorted ranks ↔ page ∈ keys ranks.
Proof. unfold sorted. by rewrite merge_sort_Permutation. Qed.

Lemma print_ranks_eq (ranks : dict Q) :
  print_ranks ranks
  = Ok ((λ page, PrintRank page (rank_of ranks page)) <$> sorted ranks).
Proof.
  unfold print_ranks. apply mapM_ok. intros page Hpage.
  apply sorted_keys in Hpage. by rewrite getitem_rank_of.
Qed.

Lemma sample_pagerank_table (w : world) (damping : Q) (n : Z) :
  link_graph (corpus_obj w) →
  corpus_obj w ≠ [] →
  n ≠ 0%Z →
  ∃ ranks w', sample_pagerank damping n w = Ok (ranks, w') ∧
              keys ranks = keys (corpus_obj w) ∧ corpus_obj w' = corpus_obj w.
Proof.
  intros Hg Hne Hn.
  destruct (sample_pagerank_run w damping n Hg Hne)
    as (counts & w' & Hkeys & _ & _ & Hw' & ->).
  rewrite sample_division_ok by done. simpl.
  eexists _, _. split; [reflexivity|]. split; [|done].
  rewrite <- Hkeys. unfold keys. by rewrite <- list_fmap_compose.
Qed.

(** X12. Started on a directory without any file whose name ends in
    [.html], [main] prints the empty corpus and then stops with the
    [IndexError] that [sample_pagerank] raises. *)
Theorem main_without_pages
    (findall : string → list string) (argv : list string)
    (listing : string → list (string * string)) (gen : nat → N) (fuel : nat) :
  length argv = 2%nat →
  Forall (λ entry, endswith entry.1 ".html" = false) (listing (nth 1 argv "")) →
  main findall argv listing gen fuel = Uncaught IndexError [PrintCorpus []].
Proof.
  intros Hargc Hnone.
  destruct (crawl_eq findall (listing (nth 1 argv ""))) as (_ & _ & Hkeys & Hrun).
  assert (Hempty : extract_links findall (listing (nth 1 argv "")) = []).
  { destruct (extract_links findall (listing (nth 1 argv ""))) as [|[k v] pages];
      [done|].
    exfalso. destruct (Hkeys k) as [(c & Hin & Hk) _]; [left|].
    rewrite Forall_forall in Hnone. specialize (Hnone _ Hin). simpl in Hnone.
    congruence. }
  rewrite Hempty in Hrun. simpl in Hrun.
  unfold main. rewrite Hargc, Nat.eqb_refl. cbn [negb]. rewrite Hrun. done.
Qed.

Lemma main_without_pages_witness :
  main (λ contents, [contents]) ["pagerank.py"; "corpus"]
       (λ _, [("notes.txt", "1.html")]) zero_rng 10
  = Uncaught IndexError [PrintCorpus []].
Proof.
  apply (main_without_pages (λ contents, [contents]) ["pagerank.py"; "corpus"]
           (λ _, [("notes.txt", "1.html")]) zero_rng 10).
  - reflexivity.
  - by_evaluation.
Defined.

(** X13. Started with one argument on a directory with at least one file
    whose name ends in [.html], and given time for [pass_bound DAMPING + 1]
    passes, [main] runs to its end without an exception.  It prints the
    corpus as crawled, then under each of the two headings one rank for
    every page of the corpus, the pages in sorted order, the first ranks
    from a mapping that [sample_pagerank] returned over the pages of the
    corpus and the second from one that [iterate_pagerank] returned. *)
Theorem main_finishes
    (findall : string → list string) (argv : list string)
    (listing : string → list (string * string)) (gen : nat → N) (fuel : nat) :
  length argv = 2%nat →
  Exists (λ entry, endswith entry.1 ".html" = true) (listing (nth 1 argv "")) →
  (pass_bound DAMPING < fuel)%nat →
  ∃ corpus pages sampled iterated w1 w2,
    crawl findall (listing (nth 1 argv "")) = Ok corpus ∧
    Sorted String.le pages ∧ pages ≡ₚ keys corpus ∧
    sample_pagerank DAMPING SAMPLES (World corpus gen) = Ok (sampled, w1) ∧
    iterate_pagerank fuel DAMPING w1 = Ok (iterated, w2) ∧
    main findall argv listing gen fuel
    = Finished
        ([PrintCorpus corpus;
          PrintLine "PageRank Results from Sampling (n = 10000)"]
         ++ ((λ page, PrintRank page (rank_of sampled page)) <$> pages)
         ++ [PrintLine "PageRank Results from Iteration"]
         ++ ((λ page, PrintRank page (rank_of iterated page)) <$> pages)).
Proof.
  intros Hargc Hsome Hfuel.
  destruct (crawl_link_graph_run findall (listing (nth 1 argv ""))) as (corpus & Hcrawl & Hg & Hkeys).
  assert (Hne : corpus ≠ []).
  { apply Exists_exists in Hsome as ([name text] & Hin & Hhtml). simpl in Hhtml.
    intros ->. destruct (Hkeys name) as [_ Hk].
    assert (Hname : name ∈ keys (@nil (Page * gset Page))) by (apply Hk; eauto).
    by apply elem_of_nil in Hname. }
  pose proof Hg as [ND _].
  destruct (sample_pagerank_table (World corpus gen) DAMPING SAMPLES)
    as (sampled & w1 & Hsample & Hks & Hw1); [done|done|done|].
  simpl in Hks, Hw1.
  assert (Hd : (0 <= DAMPING < 1)%Q) by (split; [discriminate|reflexivity]).
  destruct (iterate_locals_stops fuel DAMPING w1) as (j & _ & _ & Hloc);
    [by rewrite Hw1|by rewrite Hw1|done|done|].
  set (iterated := ranks_after (normalized (corpus_obj w1)) DAMPING
                     ((1 - DAMPING) / len (normalized (corpus_obj w1))) j
                     (uniform_ranks (corpus_obj w1))) in *.
  assert (Hiter : iterate_pagerank fuel DAMPING w1
                  = Ok (iterated, World (normalized (corpus_obj w1)) (rng w1))).
  { apply iterate_pagerank_inv. eexists. exact Hloc. }
  assert (Hki : keys iterated = keys corpus).
  { unfold iterated. rewrite keys_ranks_after; rewrite ?keys_uniform_ranks;
      by rewrite keys_normalized, Hw1. }
  exists corpus, (merge_sort String.le (keys corpus)), sampled, iterated, w1,
    (World (normalized (corpus_obj w1)) (rng w1)).
  split; [done|]. split; [apply (Sorted_merge_sort _)|].
  split; [apply merge_sort_Permutation|]. split; [done|]. split; [done|].
  unfold main. rewrite Hargc, Nat.eqb_refl. cbn [negb]. rewrite Hcrawl, Hsample.
  rewrite print_ranks_eq. unfold after_output at 1. rewrite Hiter.
  rewrite print_ranks_eq. unfold after_output. unfold sorted. rewrite Hks, Hki.
  f_equal. rewrite <- !app_assoc. reflexivity.
Qed.

Lemma main_finishes_witness :
  ∃ corpus pages sampled iterated w1 w2,
    crawl (λ contents, [contents]) [("1.html", "2.html"); ("2.html", "1.html")]
    = Ok corpus ∧
    Sorted String.le pages ∧ pages ≡ₚ keys corpus ∧
    sample_pagerank DAMPING SAMPLES (World corpus zero_rng) = Ok (sampled, w1) ∧
    iterate_pagerank 13335 DAMPING w1 = Ok (iterated, w2) ∧
    main (λ contents, [contents]) ["pagerank.py"; "corpus"]
         (λ _, [("1.html", "2.html"); ("2.html", "1.html")]) zero_rng 13335
    = Finished
        ([PrintCorpus corpus;
          PrintLine "PageRank Results from Sampling (n = 10000)"]
         ++ ((λ page, PrintRank page (rank_of sampled page)) <$> pages)
         ++ [PrintLine "PageRank Results from Iteration"]
         ++ ((λ page, PrintRank page (rank_of iterated page)) <$> pages)).
Proof.
  apply (main_finishes (λ contents, [contents]) ["pagerank.py"; "corpus"]
           (λ _, [("1.html", "2.html"); ("2.html", "1.html")]) zero_rng 13335).
  - reflexivity.
  - by_evaluation.
  - apply Nat.ltb_lt. vm_compute. reflexivity.
Defined.


(** ** Where rounding decides *)

(** In binary64, at the damping factor nearest to 1e-17, the link bonus is
    lost in the sum: from "A" in the two-page cycle the link target "B" and
    the page "A" both get 0.5. *)
Lemma binary64_link_bonus_lost :
  (0 <? 0x1.70ef54646d497p-57)%float = true ∧
  Binary64.transition_model two_cycle "A" 0x1.70ef54646d497p-57
  = Ok [("A", 0.5%float); ("B", 0.5%float)].
Proof. split; vm_compute; reflexivity. Qed.

(** C7, as stated, fails in binary64: on three pages without links, with
    [n = 6] and a generator that leads to the visit counts 1, 4 and 1, the
    values returned are the floats nearest to 1/6, 4/6 and 1/6.  Added from
    left to right they give the float just below 1, and the rational numbers
    they are add up to less than 1 as well. *)
Lemma binary64_sample_pagerank_sum_below_one :
  link_graph three_sinks ∧ three_sinks ≠ [] ∧ (1 ≤ 6)%Z ∧
  ∃ ranks w' q1 q2 q3,
    Binary64.sample_pagerank 0x1.b333333333333p-1 6
      (World three_sinks
         (words [0; 0; 4503599627370496; 4503599627370496; 4503599627370496;
                 4503599627370496; 9000000000000000]%N))
    = Ok (ranks, w') ∧
    keys ranks = keys three_sinks ∧
    Binary64.py_sum (values ranks) = 0x1.fffffffffffffp-1%float ∧
    (Binary64.py_sum (values ranks) =? 1)%float = false ∧
    Binary64.exact <$> values ranks = [Some q1; Some q2; Some q3] ∧
    (q1 + q2 + q3 < 1)%Q.
Proof.
  split; [by_evaluation|]. split; [discriminate|]. split; [lia|].
  do 5 eexists.
  split; [vm_compute; reflexivity|].
  split; [reflexivity|].
  split; [vm_compute; reflexivity|].
  split; [vm_compute; reflexivity|].
  split; [vm_compute; reflexivity|].
  vm_compute. reflexivity.
Qed.

Lemma binary64_loop_turn (fuel : nat) (gen : nat → N)
    (ranks new_ranks : dict float) :
  Binary64.new_ranks_pass tailed_cycle below_one 0x1p-55 ranks = Ok new_ranks →
  Binary64.all_close new_ranks ranks = Ok false →
  Binary64.iterate_loop (S fuel) below_one 0x1p-55 ranks (World tailed_cycle gen)
  = Binary64.iterate_loop fuel below_one 0x1p-55 new_ranks (World tailed_cycle gen).
Proof.
  intros Hpass Hclose. cbn [Binary64.iterate_loop]. rewrite bind_get_corpus.
  simpl corpus_obj.
  rewrite (bind_lift_ok _ _ _ _ Hpass), (bind_lift_ok _ _ _ _ Hclose). done.
Qed.

Lemma binary64_loop_cycles (fuel : nat) (gen : nat → N) :
  Binary64.iterate_loop fuel below_one 0x1p-55 turn1 (World tailed_cycle gen)
  = OutOfFuel ∧
  Binary64.iterate_loop fuel below_one 0x1p-55 turn2 (World tailed_cycle gen)
  = OutOfFuel ∧
  Binary64.iterate_loop fuel below_one 0x1p-55 turn3 (World tailed_cycle gen)
  = OutOfFuel.
Proof.
  induction fuel as [|fuel (IH1 & IH2 & IH3)]; [done|].
  split; [|split].
  - rewrite (binary64_loop_turn fuel gen turn1 turn2); [exact IH2|..];
      vm_compute; reflexivity.
  - rewrite (binary64_loop_turn fuel gen turn2 turn3); [exact IH3|..];
      vm_compute; reflexivity.
  - rewrite (binary64_loop_turn fuel gen turn3 turn1); [exact IH1|..];
      vm_compute; reflexivity.
Qed.

(** C8, as stated, fails in binary64: on a cycle of three pages with a
    fourth page linking into it, at the damping factor [1 - 2^-53], which
    lies in [0,1), the ranks after the first pass come back after every
    third pass, no pass meets the convergence test, and [iterate_pagerank]
    does not return, whatever time it is given. *)
Lemma binary64_iterate_pagerank_never_returns :
  link_graph tailed_cycle ∧ tailed_cycle ≠ [] ∧
  (0 <=? below_one)%float = true ∧ (below_one <? 1)%float = true ∧
  ∀ (fuel : nat) (gen : nat → N),
    Binary64.iterate_pagerank fuel below_one (World tailed_cycle gen) = OutOfFuel.
Proof.
  split; [by_evaluation|]. split; [discriminate|].
  split; [vm_compute; reflexivity|]. split; [vm_compute; reflexivity|].
  intros fuel gen.
  assert (Hlocals : Binary64.iterate_locals fuel below_one (World tailed_cycle gen)
                    = OutOfFuel).
  { unfold Binary64.iterate_locals. rewrite bind_get_corpus. simpl corpus_obj.
    erewrite bind_lift_ok; [|vm_compute; reflexivity].
    rewrite (bind_ok _ _ _ _ _ (normalize_sinks_run (World tailed_cycle gen)
                                  ltac:(by_evaluation))).
    rewrite bind_get_corpus. simpl corpus_obj. simpl rng.
    replace (normalized tailed_cycle) with tailed_cycle by (vm_compute; reflexivity).
    erewrite bind_lift_ok; [|vm_compute; reflexivity].
    destruct fuel as [|fuel]; [done|].
    rewrite (binary64_loop_turn fuel gen _ turn1); [|vm_compute; reflexivity..].
    apply binary64_loop_cycles. }
  unfold Binary64.iterate_pagerank, mbind, M_bind. by rewrite Hlocals.
Qed.
